(** * ResourceVSCodePlugin: the resource tree, path resolution and the
      [getRes(<id>)] scanner of [src/extension.js]

    The extension keeps a flat list of resource records fetched from a
    MongoDB collection, builds a parent/child tree out of it, resolves the
    dash-joined path of a record by walking its [pid] links, and decorates
    every [getRes(<digits>)] call of a JavaScript document with the path of
    the record the digits name.

    The file is organised as the source is: first the JavaScript values the
    records hold, then one definition per source function
    ([fetchResources], [buildResourceTree], [getResourcePath],
    [provideHover], [handleSelectionChange]), then the properties.

    Conventions of the embedding.
    - A JavaScript string is a [string]: one [ascii] per UTF-16 code unit
      (text in the Latin-1 range), so that [length] and character offsets
      are the ones the editor reports.
    - A number is a safe integer, [-(2^53 - 1) .. 2^53 - 1], the range in
      which every integer is a number of its own and
      [Number.prototype.toString] is the plain decimal notation.
    - A record has the four fields the code reads: [id] (a number or a
      string), [pid] (any of undefined, null, number, string), [name] and
      [code]. *)

From Stdlib Require Import ZArith NArith List String Ascii Bool Lia.
From Stdlib Require Import DecimalString DecimalZ DecimalN Sorted Eqdep_dec.
Import ListNotations.

Local Open Scope string_scope.
Local Open Scope list_scope.

Set Implicit Arguments.
Set Warnings "-register-all".

(* ================================================================== *)
(** * JavaScript values                                                *)
(* ================================================================== *)

Module JS.

(** [Number.MAX_SAFE_INTEGER]. *)
Definition max_safe : Z := 9007199254740991.

(** The integers that are numbers one by one. *)
Record SafeInteger : Type := mkSafeInteger {
  to_Z : Z;
  is_safe : (Z.abs to_Z <=? max_safe)%Z = true
}.

Definition of_Z (n : Z) : option SafeInteger :=
  match (Z.abs n <=? max_safe)%Z as b
        return ((Z.abs n <=? max_safe)%Z = b -> option SafeInteger) with
  | true => fun H => Some (mkSafeInteger n H)
  | false => fun _ => None
  end eq_refl.

Declare Scope safe_scope.
Delimit Scope safe_scope with safe.
Bind Scope safe_scope with SafeInteger.
Number Notation SafeInteger of_Z to_Z : safe_scope.

(** The primitive values a record field can hold. *)
Inductive Value : Type :=
| Undefined
| Null
| Number (n : SafeInteger)
| Str (s : string).

(** An [id] is a number or a string, never undefined or null:
    [r.id.toString()] is called on it unguarded. *)
Inductive Ident : Type :=
| IdNumber (n : SafeInteger)
| IdString (s : string).

Definition value_of (i : Ident) : Value :=
  match i with
  | IdNumber n => Number n
  | IdString s => Str s
  end.

(** [ToBoolean]: undefined, null, 0 and the empty string are falsy. *)
Definition truthy (v : Value) : bool :=
  match v with
  | Undefined | Null => false
  | Number n => negb (to_Z n =? 0)%Z
  | Str s => negb (s =? "")
  end.

(** [a === b]: same type and same value, no conversion. *)
Definition strict_eq (a b : Value) : bool :=
  match a, b with
  | Undefined, Undefined => true
  | Null, Null => true
  | Number x, Number y => (to_Z x =? to_Z y)%Z
  | Str x, Str y => (x =? y)
  | _, _ => false
  end.

(** [Number.prototype.toString] on a safe integer. *)
Definition number_toString (n : SafeInteger) : string :=
  NilZero.string_of_int (Z.to_int (to_Z n)).

(** [i.toString()]. *)
Definition toString (i : Ident) : string :=
  match i with
  | IdNumber n => number_toString n
  | IdString s => s
  end.

(** [ToPropertyKey] of a value used in [tree[v]]. *)
Definition property_key (v : Value) : string :=
  match v with
  | Undefined => "undefined"
  | Null => "null"
  | Number n => number_toString n
  | Str s => s
  end.

(** [Array.prototype.join]. *)
Definition join (sep : string) (parts : list string) : string :=
  String.concat sep parts.

(** A property key is an array index when it is the canonical decimal
    notation of an integer below 2^32 - 1; [Object.values] lists such
    keys first, in ascending numeric order. *)
Definition array_index (k : string) : option N :=
  match NilZero.uint_of_string k with
  | Some u =>
      let n := N.of_uint u in
      if (NilZero.string_of_uint (N.to_uint n) =? k) && (n <? 4294967295)%N
      then Some n else None
  | None => None
  end.

(** The properties every object literal inherits from
    [Object.prototype]. *)
Definition object_prototype_members : list string :=
  [ "constructor"; "__defineGetter__"; "__defineSetter__";
    "hasOwnProperty"; "__lookupGetter__"; "__lookupSetter__";
    "isPrototypeOf"; "propertyIsEnumerable"; "toString"; "valueOf";
    "__proto__"; "toLocaleString" ].

Definition inherited (k : string) : bool :=
  existsb (String.eqb k) object_prototype_members.

(** The errors the embedded calls raise. *)
Inductive Exn : Type :=
| TypeError
| IllegalArgument
| DriverError (msg : string).

(** How a call ends.  [Diverge] is a loop whose condition never turns
    false, or a promise that is never settled; a loop that keeps growing
    an array is in the end stopped by the engine, without a result. *)
Inductive Completion (A : Type) : Type :=
| Normal (a : A)
| Throw (e : Exn)
| Diverge.

Arguments Throw {A} e.
Arguments Diverge {A}.

Definition bind {A B} (c : Completion A) (k : A -> Completion B)
  : Completion B :=
  match c with
  | Normal a => k a
  | Throw e => Throw e
  | Diverge => Diverge
  end.

End JS.

Import JS.

Declare Scope js_scope.
Delimit Scope js_scope with js.
Notation "x <- c ;; k" := (JS.bind c (fun x => k))
  (at level 61, c at next level, right associativity) : js_scope.
Notation "a === b" := (JS.strict_eq a b) (at level 70, no associativity)
  : js_scope.
Local Open Scope js_scope.

(* ================================================================== *)
(** * Resource records                                                 *)
(* ================================================================== *)

Record Resource : Type := mkResource {
  id : Ident;
  pid : Value;
  name : string;
  code : string
}.

(* ================================================================== *)
(** * getResourcePath                                                  *)
(* ================================================================== *)

(** [tree.find((r) => r.id === v)]. *)
Definition findParent (tree : list Resource) (v : Value) : option Resource :=
  find (fun r => value_of (id r) === v) tree.

(** The [while (parent)] loop, as a relation between the variables at
    loop entry ([parent], [path]) and the array at loop exit.  A record
    found by [find] is an object, hence truthy: the loop exits exactly
    when [find] returned undefined. *)
Inductive walk (tree : list Resource)
  : option Resource -> list string -> list string -> Prop :=
| walk_exit path :
    walk tree None path path
| walk_iter parent path out :
    walk tree (findParent tree (pid parent)) (name parent :: path) out ->
    walk tree (Some parent) path out.

(** The same loop cut after [fuel] evaluations of its condition. *)
Fixpoint walk_fuel (fuel : nat) (tree : list Resource)
  (parent : option Resource) (path : list string) : option (list string) :=
  match fuel with
  | O => None
  | S fuel' =>
      match parent with
      | None => Some path
      | Some p => walk_fuel fuel' tree (findParent tree (pid p)) (name p :: path)
      end
  end.

(** The array [path] when the loop is left.  A walk that ends visits
    pairwise distinct records of [tree] ([walk_fuel_enough] below), so
    [length tree + 1] tests of the condition decide whether it ends. *)
Definition pathNames (resource : Resource) (tree : list Resource)
  : Completion (list string) :=
  match walk_fuel (S (List.length tree)) tree
          (findParent tree (pid resource)) [name resource] with
  | Some path => Normal path
  | None => Diverge
  end.

Definition getResourcePath (resource : Resource) (tree : list Resource)
  : Completion string :=
  path <- pathNames resource tree ;;
  Normal (join "-" path).

(** The chain of ancestors [find] resolves from a [pid], nearest first. *)
Inductive ancestors (tree : list Resource) : Value -> list Resource -> Prop :=
| ancestors_root v :
    findParent tree v = None -> ancestors tree v []
| ancestors_up v p l :
    findParent tree v = Some p -> ancestors tree (pid p) l ->
    ancestors tree v (p :: l).

(* ================================================================== *)
(** * buildResourceTree                                                *)
(* ================================================================== *)

(** The object literal [tree] is a store of wrapper objects, one per
    property key.  A wrapper is the spread copy of a record plus its
    [children] array; the array holds references to other wrappers of
    the same store, and a reference is the property key of the wrapper
    it points to: the second loop starts when the first one is over, so
    [tree[resource.id]] is by then the one object kept under that key.
    Keys are kept in creation order.

    One key is not the key of an own property: assigning to
    ["__proto__"] calls the setter inherited from [Object.prototype],
    which makes the assigned wrapper the prototype of [tree], and
    reading [tree["__proto__"]] gives that prototype back.  The store
    holds the prototype under this key; [Object.values] leaves it
    out. *)
Record Node : Type := mkNode {
  resource : Resource;
  children : list string
}.

Definition Tree : Type := list (string * Node).

Definition key_of (r : Resource) : string :=
  property_key (value_of (id r)).

Fixpoint getOwn (tree : Tree) (k : string) : option Node :=
  match tree with
  | [] => None
  | (k', n) :: rest => if k' =? k then Some n else getOwn rest k
  end.

(** [tree[k] = n]: an existing property keeps its place, a new one is
    created last. *)
Fixpoint setOwn (tree : Tree) (k : string) (n : Node) : Tree :=
  match tree with
  | [] => [(k, n)]
  | (k', n') :: rest =>
      if k' =? k then (k', n) :: rest else (k', n') :: setOwn rest k n
  end.

(** [{ ...resource, children: [] }]. *)
Definition wrap (r : Resource) : Node :=
  {| resource := r; children := [] |}.

Definition prototype_key : string := "__proto__".

(** First [forEach]: one assignment per record, a later one replacing
    the wrapper of an earlier one with the same key (for
    ["__proto__"]: the prototype set before). *)
Fixpoint allocate (resources : list Resource) (tree : Tree) : Tree :=
  match resources with
  | [] => tree
  | r :: rest => allocate rest (setOwn tree (key_of r) (wrap r))
  end.

(** The own properties of a wrapper that is the prototype of [tree]:
    whether the value read under [k] is truthy, [None] when the wrapper
    has no such property.  An array is truthy, empty or not. *)
Definition wrapper_property (p : Node) (k : string) : option bool :=
  if k =? "id" then Some (truthy (value_of (id (resource p))))
  else if k =? "pid" then Some (truthy (pid (resource p)))
  else if k =? "name" then Some (truthy (Str (name (resource p))))
  else if k =? "code" then Some (truthy (Str (code (resource p))))
  else if k =? "children" then Some true
  else None.

(** What [tree[k]] reads: a wrapper of the store; or a value found
    along the prototype chain (the prototype wrapper when there is one,
    then [Object.prototype]) that is truthy without being a wrapper; or
    nothing truthy. *)
Inductive Lookup : Type :=
| Own (n : Node)
| Inherited
| Missing.

Definition lookup (tree : Tree) (k : string) : Lookup :=
  match getOwn tree k with
  | Some n => Own n
  | None =>
      match getOwn tree prototype_key with
      | Some p =>
          match wrapper_property p k with
          | Some true => Inherited
          | Some false => Missing
          | None => if inherited k then Inherited else Missing
          end
      | None => if inherited k then Inherited else Missing
      end
  end.

(** Body of the second [forEach].  A wrapper is truthy and has a
    [children] array; an inherited value that is truthy (a member of
    [Object.prototype], a string, a number or the array of the
    prototype wrapper) has none, and [undefined.push] raises a
    TypeError ([None]). *)
Definition attach (tree : Tree) (r : Resource) : option Tree :=
  if truthy (pid r) then
    match lookup tree (property_key (pid r)) with
    | Own parent =>
        Some (setOwn tree (property_key (pid r))
                {| resource := resource parent;
                   children := children parent ++ [key_of r] |})
    | Inherited => None
    | Missing => Some tree
    end
  else Some tree.

Fixpoint attachAll (resources : list Resource) (tree : Tree) : option Tree :=
  match resources with
  | [] => Some tree
  | r :: rest =>
      match attach tree r with
      | Some tree' => attachAll rest tree'
      | None => None
      end
  end.

(** [Object.values]: the own properties, array-index keys in ascending
    numeric order, then the other keys in creation order. *)
Fixpoint insert_index (e : N * Node) (l : list (N * Node)) : list (N * Node) :=
  match l with
  | [] => [e]
  | e' :: rest =>
      if (fst e <=? fst e')%N then e :: l else e' :: insert_index e rest
  end.

Definition indexed (tree : Tree) : list (N * Node) :=
  flat_map (fun e => match array_index (fst e) with
                     | Some i => [(i, snd e)]
                     | None => []
                     end) tree.

Definition named (tree : Tree) : list Node :=
  flat_map (fun e => match array_index (fst e) with
                     | Some _ => []
                     | None => if fst e =? prototype_key then [] else [snd e]
                     end) tree.

Definition Object_values (tree : Tree) : list Node :=
  map snd (fold_right insert_index [] (indexed tree)) ++ named tree.

(** The returned array, with the store its references point into. *)
Record Forest : Type := mkForest {
  store : Tree;
  roots : list Node
}.

Inductive BuildResult : Type :=
| Returns (f : Forest)
| ThrowsTypeError.

Definition buildResourceTree (resources : list Resource) : BuildResult :=
  match attachAll resources (allocate resources []) with
  | None => ThrowsTypeError
  | Some tree' =>
      Returns {| store := tree';
                 roots := filter (fun n => negb (truthy (pid (resource n))))
                                 (Object_values tree') |}
  end.

(** Following the references of a wrapper, [depth] levels down. *)
Inductive TreeNode : Type :=
| TreeNode_of (r : Resource) (kids : list TreeNode).

Fixpoint unfold (depth : nat) (tree : Tree) (n : Node) : TreeNode :=
  match depth with
  | O => TreeNode_of (resource n) []
  | S d =>
      TreeNode_of (resource n)
        (flat_map (fun k => match getOwn tree k with
                            | Some c => [unfold d tree c]
                            | None => []
                            end) (children n))
  end.

(** The record kept under a key: the last one of the list with it. *)
Definition stored (resources : list Resource) (k : string) : option Resource :=
  find (fun r => key_of r =? k) (rev resources).

(** The records the second loop pushes into the wrapper under [k]. *)
Definition attached_to (k : string) (r : Resource) : bool :=
  truthy (pid r) && (property_key (pid r) =? k).

(** A wrapper with more references pushed at the end of its array. *)
Definition grow (n : Node) (pushed : list string) : Node :=
  {| resource := resource n; children := children n ++ pushed |}.

(* ================================================================== *)
(** * The reference token [/getRes\((\d+)\)/]                          *)
(* ================================================================== *)

Definition is_digit (c : ascii) : bool :=
  (48 <=? nat_of_ascii c)%nat && (nat_of_ascii c <=? 57)%nat.

(** All characters of a string satisfy a test. *)
Fixpoint all_chars (f : ascii -> bool) (s : string) : bool :=
  match s with
  | EmptyString => true
  | String c s' => f c && all_chars f s'
  end.

(** [\d+] is greedy, and what follows it is not a digit: the longest
    run of digits is the only candidate. *)
Fixpoint digits_prefix (s : string) : string :=
  match s with
  | String c s' => if is_digit c then String c (digits_prefix s') else ""
  | EmptyString => ""
  end.

Fixpoint drop (n : nat) (s : string) : string :=
  match n, s with
  | S n', String _ s' => drop n' s'
  | _, _ => s
  end.

(** A match of the pattern at the start of [s]: its capture group. *)
Definition match_at (s : string) : option string :=
  if prefix "getRes(" s then
    let digits := digits_prefix (drop 7 s) in
    if (0 <? String.length digits)%nat
       && prefix ")" (drop (7 + String.length digits) s)
    then Some digits else None
  else None.

Record Match : Type := mkMatch {
  index : nat;
  group1 : string
}.

(** [lineText.matchAll(/getRes\((\d+)\)/g)]: after a match the search
    resumes behind it; [skip] counts the characters of the last match
    still to pass. *)
Fixpoint scan (s : string) (pos skip : nat) : list Match :=
  match s with
  | EmptyString => []
  | String _ s' =>
      match skip with
      | S k => scan s' (S pos) k
      | O =>
          match match_at s with
          | Some digits =>
              {| index := pos; group1 := digits |}
                :: scan s' (S pos) (7 + String.length digits)
          | None => scan s' (S pos) 0
          end
      end
  end.

Definition matchAll (lineText : string) : list Match := scan lineText 0 0.

(** [lineText.match(/getRes\((\d+)\)/)]: the leftmost match only. *)
Fixpoint search (s : string) (pos : nat) : option Match :=
  match s with
  | EmptyString => None
  | String _ s' =>
      match match_at s with
      | Some digits => Some {| index := pos; group1 := digits |}
      | None => search s' (S pos)
      end
  end.

Definition regex_match (lineText : string) : option Match := search lineText 0.

(** [resources.find((r) => r.id.toString() === resourceId)], written
    the same way in the hover provider and in the selection handler. *)
Definition findResource (resources : list Resource) (resourceId : string)
  : option Resource :=
  find (fun r => toString (id r) =? resourceId) resources.

(* ================================================================== *)
(** * The editor: documents, positions, decorations, status bar        *)
(* ================================================================== *)

Record Position : Type := mkPosition {
  line : nat;
  character : nat
}.

Record Range : Type := mkRange {
  range_start : Position;
  range_end : Position
}.

(** [{ range, renderOptions: { after: { contentText, color } } }]. *)
Record Decoration : Type := mkDecoration {
  range : Range;
  contentText : string;
  color : string
}.

Record StatusBarItem : Type := mkStatusBarItem {
  text : string;
  backgroundColor : string;
  foreground : string;
  visible : bool
}.

Record TextDocument : Type := mkTextDocument {
  languageId : string;
  lines : list string
}.

Record TextEditor : Type := mkTextEditor {
  document : TextDocument;
  active : Position;               (* [editor.selection.active] *)
  decorations : list Decoration    (* what [setDecorations] last installed *)
}.

(** [document.lineAt]: a line outside the document is an error. *)
Definition lineAt (doc : TextDocument) (i : nat) : Completion string :=
  match nth_error (lines doc) i with
  | Some lineText => Normal lineText
  | None => Throw IllegalArgument
  end.

(** The pieces appended to a [MarkdownString]. *)
Inductive MarkdownPart : Type :=
| Codeblock (value language : string)
| Text (value : string).

Definition Hover : Type := list MarkdownPart.

Definition newline : string := String (ascii_of_nat 10) "".

(* ================================================================== *)
(** * provideHover                                                     *)
(* ================================================================== *)

(** The result is [None] where the source falls off the end of the
    function (undefined: no hover). *)
Definition provideHover (resources : list Resource)
  (doc : TextDocument) (position : Position) : Completion (option Hover) :=
  lineText <- lineAt doc (line position) ;;
  match regex_match lineText with
  | Some m =>
      let resourceId := group1 m in
      match findResource resources resourceId with
      | Some resource =>
          path <- getResourcePath resource resources ;;
          Normal (Some [ Codeblock path "typescript";
                         Text newline;
                         Codeblock (code resource) "css" ])
      | None => Normal None
      end
  | None => Normal None
  end.

(* ================================================================== *)
(** * handleSelectionChange                                            *)
(* ================================================================== *)

(** The variables the two nested loops update: the local array
    [decorations] and the module-level [statusBarItem]. *)
Record Scan : Type := mkScan {
  pending : list Decoration;
  status : StatusBarItem
}.

Definition warningBackground : string := "statusBarItem.warningBackground".
Definition warningForeground : string := "statusBarItem.warningForeground".

(** [isOnId] for a match at [index] on line [i]. *)
Definition idStart (m : Match) : nat := index m + 7.
Definition idEnd (m : Match) : nat := idStart m + String.length (group1 m).

Definition isOnId (cursor : Position) (i : nat) (m : Match) : bool :=
  (line cursor =? i)%nat
  && (idStart m <=? character cursor)%nat
  && (character cursor <=? idEnd m)%nat.

Definition annotation (i : nat) (m : Match) (path : string) : Decoration :=
  {| range := {| range_start := {| line := i; character := idEnd m |};
                 range_end := {| line := i; character := idEnd m |} |};
     contentText := path;
     color := "gray" |}.

(** Matches come in order and do not overlap: the next one starts
    behind the closing parenthesis of the previous one. *)
Definition before (a b : Match) : Prop := idEnd a < index b.

(** Body of [for (const match of matches)]. *)
Definition handleMatch (resources : list Resource) (cursor : Position)
  (i : nat) (st : Scan) (m : Match) : Completion Scan :=
  let resourceId := group1 m in
  match findResource resources resourceId with
  | Some resource =>
      path <- getResourcePath resource resources ;;
      let st1 :=
        if negb (isOnId cursor i m)
        then {| pending := pending st ++ [annotation i m path];
                status := status st |}
        else st in
      let st2 :=
        if isOnId cursor i m
        then {| pending := pending st1;
                status := {| text := resourceId ++ ":" ++ path;
                             backgroundColor := warningBackground;
                             foreground := warningForeground;
                             visible := true |} |}
        else st1 in
      Normal st2
  | None => Normal st
  end.

Fixpoint handleMatches (resources : list Resource) (cursor : Position)
  (i : nat) (st : Scan) (matches : list Match) : Completion Scan :=
  match matches with
  | [] => Normal st
  | m :: rest =>
      st' <- handleMatch resources cursor i st m ;;
      handleMatches resources cursor i st' rest
  end.

(** Body of [for (let i = 0; i < document.lineCount; i++)], over the
    lines from [i] on. *)
Fixpoint handleLines (resources : list Resource) (cursor : Position)
  (i : nat) (st : Scan) (rest : list string) : Completion Scan :=
  match rest with
  | [] => Normal st
  | lineText :: rest' =>
      st' <- handleMatches resources cursor i st (matchAll lineText) ;;
      handleLines resources cursor (S i) st' rest'
  end.

(** The occurrences of the token in the lines from [i] on, each with
    its line number, in the order the two loops meet them. *)
Fixpoint occurrences (i : nat) (rest : list string) : list (nat * Match) :=
  match rest with
  | [] => []
  | lineText :: rest' =>
      map (pair i) (matchAll lineText) ++ occurrences (S i) rest'
  end.

(** The two loops as one pass over the occurrences
    ([handleLines_occurrences] below). *)
Fixpoint handleOccurrences (resources : list Resource) (cursor : Position)
  (st : Scan) (occs : list (nat * Match)) : Completion Scan :=
  match occs with
  | [] => Normal st
  | (i, m) :: rest =>
      st' <- handleMatch resources cursor i st m ;;
      handleOccurrences resources cursor st' rest
  end.

(** The occurrence [(i, m)] resolves to [path]. *)
Definition resolves (resources : list Resource) (m : Match) (path : string)
  : Prop :=
  exists r, findResource resources (group1 m) = Some r
            /\ getResourcePath r resources = Normal path.

(** The handler maps the editor and the status bar item to their new
    states. *)
Definition handleSelectionChange (resources : list Resource)
  (editor : TextEditor) (statusBarItem : StatusBarItem)
  : Completion (TextEditor * StatusBarItem) :=
  if negb (languageId (document editor) =? "javascript")
  then Normal (editor, statusBarItem)
  else
    st <- handleLines resources (active editor) 0
            {| pending := []; status := statusBarItem |}
            (lines (document editor)) ;;
    Normal ({| document := document editor;
               active := active editor;
               decorations := pending st |},
            status st).

(* ================================================================== *)
(** * fetchResources                                                   *)
(* ================================================================== *)

(** What the user is shown and what is logged. *)
Inductive Effect : Type :=
| ConsoleError (msg : string) (error : Exn)
| ShowErrorMessage (msg : string)
| ShowInformationMessage (msg : string).

(** The module-level variable [resources] and the trace of effects. *)
Record World : Type := mkWorld {
  resources : list Resource;
  effects : list Effect
}.

(** How the database answers one call of [fetchResources]: the
    completions of [client.connect()], [collection.find().toArray()] and
    [client.close()]. *)
Record Mongo : Type := mkMongo {
  connect : Completion unit;
  toArray : Completion (list Resource);
  close : Completion unit
}.

(** An [async] function transforms the world.  It also gives up control
    at every [await]: [suspended] lists the worlds other handlers read
    while it waits, in order. *)
Record Run (A : Type) : Type := mkRun {
  suspended : list World;
  final : World;
  completion : Completion A
}.

Definition Async (A : Type) : Type := World -> Run A.

Module Async.

Definition ret {A} (a : A) : Async A :=
  fun w => {| suspended := []; final := w; completion := Normal a |}.

Definition bind {A B} (c : Async A) (k : A -> Async B) : Async B :=
  fun w =>
    let r := c w in
    match completion r with
    | Normal a =>
        let r' := k a (final r) in
        {| suspended := suspended r ++ suspended r';
           final := final r';
           completion := completion r' |}
    | Throw e =>
        {| suspended := suspended r; final := final r; completion := Throw e |}
    | Diverge =>
        {| suspended := suspended r; final := final r; completion := Diverge |}
    end.

(** [await p] for a promise settling as [p]. *)
Definition await {A} (p : Completion A) : Async A :=
  fun w => {| suspended := [w]; final := w; completion := p |}.

Definition emit (e : Effect) : Async unit :=
  fun w => {| suspended := [];
              final := {| resources := resources w;
                          effects := effects w ++ [e] |};
              completion := Normal tt |}.

(** [resources = rs]. *)
Definition assign (rs : list Resource) : Async unit :=
  fun w => {| suspended := [];
              final := {| resources := rs; effects := effects w |};
              completion := Normal tt |}.

(** [try { body } catch (error) { handler } finally { finalizer }]:
    the finalizer runs in every case, and its own abrupt completion
    replaces the one of the block before it. *)
Definition try_catch_finally {A} (body : Async A)
  (handler : Exn -> Async A) (finalizer : Async unit) : Async A :=
  fun w =>
    let r := body w in
    let r1 :=
      match completion r with
      | Throw e =>
          let h := handler e (final r) in
          {| suspended := suspended r ++ suspended h;
             final := final h;
             completion := completion h |}
      | _ => r
      end in
    match completion r1 with
    | Diverge => r1
    | c =>
        let f := finalizer (final r1) in
        {| suspended := suspended r1 ++ suspended f;
           final := final f;
           completion := match completion f with
                         | Normal _ => c
                         | Throw e => Throw e
                         | Diverge => Diverge
                         end |}
    end.

End Async.

Declare Scope async_scope.
Delimit Scope async_scope with async.
Notation "x <- c ;; k" := (Async.bind c (fun x => k))
  (at level 61, c at next level, right associativity) : async_scope.
Notation "c ;; k" := (Async.bind c (fun _ => k))
  (at level 61, right associativity) : async_scope.

(** The message of [vscode.window.showErrorMessage]. *)
Definition fetch_failed : Effect :=
  ShowErrorMessage
    "Failed to fetch resources. Please check your database connection.".

(** [database.collection("resources")] and [client.db("mpadmin")] build
    handles without talking to the server. *)
Definition fetchResources (db : Mongo) : Async unit :=
  Async.try_catch_finally
    (Async.await (connect db) ;;
     found <- Async.await (toArray db) ;;
     Async.assign found)%async
    (fun error =>
       Async.emit (ConsoleError "Error fetching resources:" error) ;;
       Async.emit fetch_failed)%async
    (Async.await (close db)).

(** How the two awaits of the [try] block end, taken together. *)
Definition query (db : Mongo) : Completion (list Resource) :=
  (_ <- connect db ;; toArray db)%js.

(** The command [extension.refreshResourcesAndCompletion]. *)
Definition refreshCommand (db : Mongo) : Async unit :=
  (fetchResources db ;;
   Async.emit (ShowInformationMessage "resources data refreshed."))%async.

(** The first character of a string is [g], as that of a token is. *)
Definition starts_with_g (s : string) : bool :=
  match s with
  | String c _ => (c =? "g")%char
  | EmptyString => false
  end.

(* ================================================================== *)
(** * provideCompletionItems                                           *)
(* ================================================================== *)

(** [s.substr(0, n)]: the first [n] code units of [s], all of [s] when it
    is shorter. *)
Fixpoint take (n : nat) (s : string) : string :=
  match n, s with
  | S n', String c s' => String c (take n' s')
  | _, _ => ""
  end.

(** [s.endsWith(t)]: [t] is read off [s] from [length s - length t]. *)
Definition endsWith (s t : string) : bool :=
  (String.length t <=? String.length s)%nat
  && (drop (String.length s - String.length t) s =? t).

(** [String.prototype.toLowerCase] on Latin-1 text: the letters A-Z and
    the accented capitals (U+00C0 to U+00DE but the multiplication sign)
    move 32 code points up, everything else stays. *)
Definition lower_char (c : ascii) : ascii :=
  let n := nat_of_ascii c in
  if ((65 <=? n) && (n <=? 90) || (192 <=? n) && (n <=? 214)
      || (216 <=? n) && (n <=? 222))%nat
  then ascii_of_nat (n + 32) else c.

Fixpoint toLowerCase (s : string) : string :=
  match s with
  | EmptyString => ""
  | String c s' => String (lower_char c) (toLowerCase s')
  end.

(** [vscode.CompletionItemKind]: the one kind the provider uses. *)
Inductive CompletionItemKind : Type :=
| KindValue.

Record CompletionItem : Type := mkCompletionItem {
  label : string;
  kind : CompletionItemKind;
  detail : string;
  insertText : string;
  sortText : string
}.

(** The callback of [resources.map]: the path is computed once for the
    label and once for the detail. *)
Definition completionItem (resources : list Resource) (resource : Resource)
  : Completion CompletionItem :=
  labelPath <- getResourcePath resource resources ;;
  detailPath <- getResourcePath resource resources ;;
  Normal {| label := toString (id resource) ++ ": " ++ labelPath;
            kind := KindValue;
            detail := detailPath;
            insertText := toString (id resource);
            sortText := toLowerCase (name resource) |}.

(** The item of a record whose path is [path]. *)
Definition itemOf (r : Resource) (path : string) : CompletionItem :=
  {| label := toString (id r) ++ ": " ++ path;
     kind := KindValue;
     detail := path;
     insertText := toString (id r);
     sortText := toLowerCase (name r) |}.

(** [Array.prototype.map] with a callback that may not return. *)
Fixpoint mapM (A B : Type) (f : A -> Completion B) (l : list A)
  : Completion (list B) :=
  match l with
  | [] => Normal []
  | a :: rest =>
      b <- f a ;;
      bs <- mapM f rest ;;
      Normal (b :: bs)
  end.

(** [None] is the [undefined] returned when the text before the cursor
    does not end with the opening of a token. *)
Definition provideCompletionItems (resources : list Resource)
  (doc : TextDocument) (position : Position)
  : Completion (option (list CompletionItem)) :=
  lineText <- lineAt doc (line position) ;;
  let linePrefix := take (character position) lineText in
  if negb (endsWith linePrefix "getRes(") then Normal None
  else
    items <- mapM (completionItem resources) resources ;;
    Normal (Some items).


(* ================================================================== *)
(** * The handler as a function of the occurrences                     *)
(* ================================================================== *)

(** What one occurrence contributes to the decorations... *)
Definition annotationOf (resources : list Resource) (cursor : Position)
  (o : nat * Match) : list Decoration :=
  match findResource resources (group1 (snd o)) with
  | Some r =>
      match getResourcePath r resources with
      | Normal path =>
          if isOnId cursor (fst o) (snd o) then []
          else [annotation (fst o) (snd o) path]
      | _ => []
      end
  | None => []
  end.

(** ... and to the status bar item. *)
Definition statusOf (resources : list Resource) (cursor : Position)
  (o : nat * Match) : option StatusBarItem :=
  match findResource resources (group1 (snd o)) with
  | Some r =>
      match getResourcePath r resources with
      | Normal path =>
          if isOnId cursor (fst o) (snd o)
          then Some {| text := group1 (snd o) ++ ":" ++ path;
                       backgroundColor := warningBackground;
                       foreground := warningForeground;
                       visible := true |}
          else None
      | _ => None
      end
  | None => None
  end.

(** The status bar item after the occurrences [occs], met in order. *)
Definition statusAfter (resources : list Resource) (cursor : Position)
  (occs : list (nat * Match)) (sb : StatusBarItem) : StatusBarItem :=
  fold_left (fun acc o => match statusOf resources cursor o with
                          | Some shown => shown
                          | None => acc
                          end) occs sb.

(* ================================================================== *)
(** * Snapshots and documents used as examples                         *)
(* ================================================================== *)

Module Scenario.

(** A root and its child. *)
Definition A : Resource :=
  {| id := IdNumber 1; pid := Null; name := "A"; code := ".a {}" |}.
Definition B : Resource :=
  {| id := IdNumber 2; pid := Number 1; name := "B"; code := ".b {}" |}.
Definition snapshot : list Resource := [A; B].

(** A parent with three children given out of id order. *)
Definition siblings : list Resource :=
  [ {| id := IdNumber 30; pid := Number 1; name := "c"; code := "" |};
    A;
    {| id := IdNumber 10; pid := Number 1; name := "a"; code := "" |};
    {| id := IdNumber 20; pid := Number 1; name := "b"; code := "" |} ].

(** Two records naming each other as parent. *)
Definition loop1 : Resource :=
  {| id := IdNumber 1; pid := Number 2; name := "A"; code := "" |}.
Definition loop2 : Resource :=
  {| id := IdNumber 2; pid := Number 1; name := "B"; code := "" |}.
Definition cycle : list Resource := [loop1; loop2].

(** A record that names itself as parent. *)
Definition selfish : Resource :=
  {| id := IdNumber 9; pid := Number 9; name := "S"; code := "" |}.

(** A record whose parent id is the name of an inherited property. *)
Definition constructed : Resource :=
  {| id := IdNumber 3; pid := Str "constructor"; name := "C"; code := "" |}.

(** A second record with the id of [A]. *)
Definition renamed : Resource :=
  {| id := IdNumber 1; pid := Null; name := "A2"; code := ".a2 {}" |}.





(** A record whose id is the name of the prototype accessor, without
    parent and under record 0. *)
Definition hidden_root : Resource :=
  {| id := IdString "__proto__"; pid := Null; name := "P"; code := "" |}.

(** Ids that differ only by leading zeros. *)
Definition agent : Resource :=
  {| id := IdString "007"; pid := Null; name := "Bond"; code := "" |}.
Definition seven : Resource :=
  {| id := IdNumber 7; pid := Null; name := "Seven"; code := "" |}.

Definition doc (ls : list string) : TextDocument :=
  {| languageId := "javascript"; lines := ls |}.

Definition editor (ls : list string) (l c : nat) : TextEditor :=
  {| document := doc ls;
     active := {| line := l; character := c |};
     decorations := [] |}.

(** The status bar item as [activate] leaves it. *)
Definition idle : StatusBarItem :=
  {| text := "";
     backgroundColor := warningBackground;
     foreground := warningForeground;
     visible := false |}.

(** The status bar item after a visit to [getRes(2)]. *)
Definition visited : StatusBarItem :=
  {| text := "2:A-B";
     backgroundColor := warningBackground;
     foreground := warningForeground;
     visible := true |}.

Definition world (rs : list Resource) : World :=
  {| resources := rs; effects := [] |}.

(** The server is down. *)
Definition unreachable : Mongo :=
  {| connect := Throw (DriverError "ECONNREFUSED");
     toArray := Normal snapshot;
     close := Normal tt |}.

(** The query succeeds, closing the connection fails. *)
Definition close_fails : Mongo :=
  {| connect := Normal tt;
     toArray := Normal snapshot;
     close := Throw (DriverError "close") |}.

Definition healthy : Mongo :=
  {| connect := Normal tt; toArray := Normal snapshot; close := Normal tt |}.

End Scenario.

(* ================================================================== *)
(** * Properties of values                                             *)
(* ================================================================== *)



(* ================================================================== *)
(** * Properties of the parent walk                                    *)
(* ================================================================== *)

Section ParentWalk.

Variable tree : list Resource.

Lemma findParent_In v p : findParent tree v = Some p -> In p tree.
Proof.
  unfold findParent. intros H. apply find_some in H. tauto.
Qed.


(** One chain per starting point. *)
Lemma ancestors_unique v l1 :
  ancestors tree v l1 -> forall l2, ancestors tree v l2 -> l1 = l2.
Proof.
  induction 1 as [v Hv | v p l Hv _ IH]; intros l2 H2;
    inversion H2; subst; try congruence.
  assert (p0 = p) by congruence. subst p0.
  f_equal. now apply IH.
Qed.

(** What follows a record in a chain is the chain of that record. *)
Lemma ancestors_tail front p back :
  forall v, ancestors tree v (front ++ p :: back) ->
            ancestors tree (pid p) back.
Proof.
  induction front as [| q front IH]; intros v H; inversion H; subst.
  - assumption.
  - eapply IH; eassumption.
Qed.

(** A chain that ends never meets the same record twice: from the
    second visit on it would go round for ever. *)
Lemma ancestors_fresh p l : ancestors tree (pid p) l -> ~ In p l.
Proof.
  intros H Hin.
  apply in_split in Hin. destruct Hin as (front & back & ->).
  pose proof (@ancestors_tail front p back _ H) as Hback.
  pose proof (ancestors_unique H Hback) as Heq.
  apply (f_equal (@List.length Resource)) in Heq.
  rewrite length_app in Heq. simpl in Heq. lia.
Qed.

Lemma ancestors_NoDup v l : ancestors tree v l -> NoDup l.
Proof.
  induction 1 as [| v p l Hv Hl IH]; constructor; auto.
  now apply ancestors_fresh.
Qed.

Lemma ancestors_incl v l : ancestors tree v l -> incl l tree.
Proof.
  induction 1 as [| v p l Hv Hl IH].
  - intros x [].
  - intros x [<- | Hx]; [eapply findParent_In; eassumption | auto].
Qed.

(** Hence a chain that ends is no longer than the snapshot. *)
Lemma ancestors_bounded v l :
  ancestors tree v l -> List.length l <= List.length tree.
Proof.
  intros H. apply NoDup_incl_length.
  - eapply ancestors_NoDup; eassumption.
  - eapply ancestors_incl; eassumption.
Qed.

Lemma walk_fuel_mono fuel :
  forall parent path out,
    walk_fuel fuel tree parent path = Some out ->
    forall fuel', fuel <= fuel' ->
                  walk_fuel fuel' tree parent path = Some out.
Proof.
  induction fuel as [| fuel IH]; intros parent path out H fuel' Hle.
  - discriminate.
  - destruct fuel' as [| fuel']; [lia |].
    simpl in *. destruct parent as [p |]; [| assumption].
    apply IH with (fuel' := fuel') in H; [assumption | lia].
Qed.

Lemma walk_fuel_sound fuel :
  forall parent path out,
    walk_fuel fuel tree parent path = Some out ->
    walk tree parent path out.
Proof.
  induction fuel as [| fuel IH]; intros parent path out H; simpl in H.
  - discriminate.
  - destruct parent as [p |].
    + constructor. now apply IH.
    + injection H as <-. constructor.
Qed.

(** The loop prepends the names of the chain, nearest ancestor first,
    and needs one test of its condition per ancestor plus one. *)
Lemma walk_fuel_ancestors v l :
  ancestors tree v l ->
  forall path,
    walk_fuel (S (List.length l)) tree (findParent tree v) path
    = Some (rev (map name l) ++ path).
Proof.
  induction 1 as [v Hv | v p l Hv Hl IH]; intros path.
  - simpl. now rewrite Hv.
  - change (walk_fuel (S (List.length (p :: l))) tree (findParent tree v) path)
      with (match findParent tree v with
            | None => Some path
            | Some q => walk_fuel (S (List.length l)) tree
                          (findParent tree (pid q)) (name q :: path)
            end).
    rewrite Hv, IH. cbn [map rev]. now rewrite <- app_assoc.
Qed.

Lemma walk_ancestors parent path out :
  walk tree parent path out ->
  forall v, parent = findParent tree v ->
            exists l, ancestors tree v l /\ out = rev (map name l) ++ path.
Proof.
  induction 1 as [path | p path out Hw IH]; intros v Hv.
  - exists []. split; [now constructor | reflexivity].
  - destruct (IH (pid p) eq_refl) as (l & Hl & ->).
    exists (p :: l). split.
    + econstructor; [symmetry; eassumption | assumption].
    + cbn [map rev]. now rewrite <- app_assoc.
Qed.

(** [length tree + 1] tests are enough whenever the loop ends. *)
Lemma walk_fuel_enough v l path :
  ancestors tree v l ->
  walk_fuel (S (List.length tree)) tree (findParent tree v) path
  = Some (rev (map name l) ++ path).
Proof.
  intros H.
  apply walk_fuel_mono with (fuel := S (List.length l)).
  - now apply walk_fuel_ancestors.
  - apply ancestors_bounded in H. lia.
Qed.

Lemma pathNames_ancestors r l :
  ancestors tree (pid r) l ->
  pathNames r tree = Normal (rev (map name l) ++ [name r]).
Proof.
  intros H. unfold pathNames. now rewrite (walk_fuel_enough _ H).
Qed.

(** [pathNames] returns exactly when the loop has an exit. *)
Lemma pathNames_Normal_iff r names :
  pathNames r tree = Normal names <->
  walk tree (findParent tree (pid r)) [name r] names.
Proof.
  split.
  - unfold pathNames.
    destruct (walk_fuel _ _ _ _) as [path |] eqn:E; [| discriminate].
    intros [= <-]. eapply walk_fuel_sound; eassumption.
  - intros Hw.
    destruct (walk_ancestors Hw _ eq_refl) as (l & Hl & ->).
    now apply pathNames_ancestors.
Qed.

Lemma pathNames_Diverge r :
  (forall l, ~ ancestors tree (pid r) l) ->
  pathNames r tree = Diverge
  /\ forall fuel,
       walk_fuel fuel tree (findParent tree (pid r)) [name r] = None.
Proof.
  intros Hno.
  assert (Hfuel : forall fuel,
    walk_fuel fuel tree (findParent tree (pid r)) [name r] = None).
  { intros fuel.
    destruct (walk_fuel fuel _ _ _) as [out |] eqn:E; [| reflexivity].
    apply walk_fuel_sound in E.
    destruct (walk_ancestors E _ eq_refl) as (l & Hl & _).
    now destruct (Hno l). }
  split; [| exact Hfuel].
  unfold pathNames. now rewrite Hfuel.
Qed.

(** [Diverge] stands for a loop no number of iterations exhausts. *)
Lemma pathNames_Diverge_iff r :
  pathNames r tree = Diverge <->
  forall fuel,
    walk_fuel fuel tree (findParent tree (pid r)) [name r] = None.
Proof.
  split.
  - intros Hd. apply pathNames_Diverge.
    intros l Hl. rewrite (pathNames_ancestors r Hl) in Hd. discriminate.
  - intros Hf. unfold pathNames. now rewrite Hf.
Qed.

Lemma pathNames_total r :
  pathNames r tree = Diverge \/ exists names, pathNames r tree = Normal names.
Proof.
  unfold pathNames. destruct (walk_fuel _ _ _ _); eauto.
Qed.

End ParentWalk.

(* ================================================================== *)
(** * Properties of the store                                          *)
(* ================================================================== *)

Lemma getOwn_setOwn tree k n k' :
  getOwn (setOwn tree k n) k' = if k =? k' then Some n else getOwn tree k'.
Proof.
  induction tree as [| [k0 n0] rest IH]; simpl.
  - reflexivity.
  - destruct (String.eqb_spec k0 k) as [-> | Hne]; simpl.
    + destruct (k =? k'); reflexivity.
    + rewrite IH.
      destruct (String.eqb_spec k0 k') as [-> | Hne'].
      * destruct (String.eqb_spec k k'); [congruence | reflexivity].
      * reflexivity.
Qed.

Lemma getOwn_In tree k n : getOwn tree k = Some n -> In (k, n) tree.
Proof.
  induction tree as [| [k0 n0] rest IH]; simpl; [discriminate |].
  destruct (String.eqb_spec k0 k) as [-> | Hne].
  - intros [= ->]. now left.
  - intros H. right. now apply IH.
Qed.

Lemma In_getOwn tree k n :
  NoDup (map fst tree) -> In (k, n) tree -> getOwn tree k = Some n.
Proof.
  induction tree as [| [k0 n0] rest IH]; simpl; [tauto |].
  intros Hnd [H | H]; inversion Hnd as [| ? ? Hfresh Hrest]; subst.
  - injection H as -> ->. now rewrite String.eqb_refl.
  - destruct (String.eqb_spec k0 k) as [-> | Hne]; [| now apply IH].
    exfalso. apply Hfresh. change k with (fst (k, n)). now apply in_map.
Qed.

Lemma setOwn_keys tree k n :
  map fst (setOwn tree k n)
  = if existsb (String.eqb k) (map fst tree)
    then map fst tree else map fst tree ++ [k].
Proof.
  induction tree as [| [k0 n0] rest IH]; simpl; [reflexivity |].
  rewrite (String.eqb_sym k k0).
  destruct (k0 =? k); simpl; [reflexivity |].
  rewrite IH. now destruct (existsb _ _).
Qed.

Lemma setOwn_NoDup tree k n :
  NoDup (map fst tree) -> NoDup (map fst (setOwn tree k n)).
Proof.
  intros Hnd. rewrite setOwn_keys.
  destruct (existsb _ _) eqn:E; [assumption |].
  apply NoDup_app; [assumption | repeat constructor; simpl; tauto |].
  intros x Hx [Hk | []]. subst x.
  assert (existsb (String.eqb k) (map fst tree) = true); [| congruence].
  apply existsb_exists. exists k. now rewrite String.eqb_refl.
Qed.

(** Writing under a key the store already has moves no key. *)
Lemma setOwn_keys_present tree k n n0 :
  getOwn tree k = Some n0 -> map fst (setOwn tree k n) = map fst tree.
Proof.
  intros H. rewrite setOwn_keys.
  replace (existsb _ _) with true; [reflexivity |].
  symmetry. apply existsb_exists. exists k.
  split; [| apply String.eqb_refl].
  apply getOwn_In in H. change k with (fst (k, n0)). now apply in_map.
Qed.

(** ** The first loop *)

Lemma stored_cons r rs k :
  stored (r :: rs) k
  = match stored rs k with
    | Some x => Some x
    | None => if key_of r =? k then Some r else None
    end.
Proof.
  unfold stored. simpl rev.
  induction (rev rs) as [| x l IH]; simpl.
  - reflexivity.
  - destruct (key_of x =? k); [reflexivity | exact IH].
Qed.

Lemma stored_key rs k r : stored rs k = Some r -> key_of r = k /\ In r rs.
Proof.
  unfold stored. intros H. apply find_some in H. destruct H as [Hin Hk].
  split; [now apply String.eqb_eq | now apply in_rev].
Qed.

Lemma stored_None rs k :
  stored rs k = None <-> forall r, In r rs -> key_of r <> k.
Proof.
  unfold stored. split.
  - intros H r Hin Hk.
    apply in_rev in Hin.
    pose proof (find_none _ _ H r Hin) as Hf. simpl in Hf.
    apply String.eqb_neq in Hf. contradiction.
  - intros H. destruct (find _ _) as [r |] eqn:E; [| reflexivity].
    apply find_some in E. destruct E as [Hin Hk].
    apply in_rev in Hin. apply String.eqb_eq in Hk. now destruct (H r Hin).
Qed.

(** With pairwise distinct keys every record is the one kept. *)
Lemma stored_unique rs :
  NoDup (map key_of rs) -> forall r, In r rs -> stored rs (key_of r) = Some r.
Proof.
  induction rs as [| x rs IH]; intros Hnd r Hin; [destruct Hin |].
  inversion Hnd as [| ? ? Hfresh Hrest]; subst.
  rewrite stored_cons. destruct Hin as [-> | Hin].
  - replace (stored rs (key_of r)) with (@None Resource).
    + now rewrite String.eqb_refl.
    + symmetry. apply stored_None. intros y Hy Hk.
      apply Hfresh. rewrite <- Hk. now apply in_map.
  - now rewrite (IH Hrest r Hin).
Qed.

Lemma allocate_getOwn rs :
  forall tree k,
    getOwn (allocate rs tree) k
    = match stored rs k with
      | Some r => Some (wrap r)
      | None => getOwn tree k
      end.
Proof.
  induction rs as [| r rs IH]; intros tree k; simpl.
  - reflexivity.
  - rewrite IH, stored_cons, getOwn_setOwn.
    destruct (stored rs k); [reflexivity |].
    now destruct (key_of r =? k).
Qed.

Lemma allocate_NoDup rs :
  forall tree, NoDup (map fst tree) -> NoDup (map fst (allocate rs tree)).
Proof.
  induction rs as [| r rs IH]; intros tree Hnd; simpl.
  - assumption.
  - apply IH. now apply setOwn_NoDup.
Qed.

(** ** The second loop *)

Lemma grow_nil n : grow n [] = n.
Proof. destruct n. unfold grow. simpl. now rewrite app_nil_r. Qed.

Lemma grow_grow n a b : grow (grow n a) b = grow n (a ++ b).
Proof. unfold grow. simpl. now rewrite app_assoc. Qed.

Lemma attach_cases tree r tree' :
  attach tree r = Some tree' ->
  tree' = tree
  \/ exists parent,
       truthy (pid r) = true
       /\ getOwn tree (property_key (pid r)) = Some parent
       /\ tree' = setOwn tree (property_key (pid r))
                    {| resource := resource parent;
                       children := children parent ++ [key_of r] |}.
Proof.
  unfold attach, lookup. intros H.
  destruct (truthy (pid r)); [| left; congruence].
  destruct (getOwn tree (property_key (pid r))) as [parent |] eqn:E.
  - right. exists parent. injection H as <-. auto.
  - left.
    destruct (getOwn tree prototype_key) as [p |].
    + destruct (wrapper_property p (property_key (pid r))) as [[|] |];
        [discriminate | congruence |].
      destruct (inherited _); [discriminate | congruence].
    + destruct (inherited _); [discriminate | congruence].
Qed.

Lemma attach_getOwn tree r tree' :
  attach tree r = Some tree' ->
  forall k, getOwn tree' k
            = option_map
                (fun n => grow n (map key_of (filter (attached_to k) [r])))
                (getOwn tree k).
Proof.
  intros H k. unfold attached_to. simpl.
  destruct (attach_cases _ _ H) as [-> | (parent & Ht & E & ->)].
  - destruct (getOwn tree k) as [n |] eqn:En; simpl; [| reflexivity].
    destruct (truthy (pid r)) eqn:Ht; simpl; [| now rewrite grow_nil].
    destruct (String.eqb_spec (property_key (pid r)) k) as [Hk | _];
      [| now rewrite grow_nil].
    exfalso. subst k. unfold attach, lookup in H. rewrite Ht, En in H.
    injection H as H. apply (f_equal (fun t => getOwn t (property_key (pid r))))
      in H.
    rewrite getOwn_setOwn, String.eqb_refl, En in H.
    injection H as H. apply (f_equal (fun n => List.length (children n))) in H.
    simpl in H. rewrite length_app in H. simpl in H. lia.
  - rewrite Ht, getOwn_setOwn. simpl.
    destruct (String.eqb_spec (property_key (pid r)) k) as [<- | Hne].
    + now rewrite E.
    + destruct (getOwn tree k); simpl; [now rewrite grow_nil | reflexivity].
Qed.

Lemma attach_keys tree r tree' :
  attach tree r = Some tree' -> map fst tree' = map fst tree.
Proof.
  intros H.
  destruct (attach_cases _ _ H) as [-> | (parent & _ & E & ->)];
    [reflexivity |].
  eapply setOwn_keys_present; eassumption.
Qed.

Lemma attachAll_getOwn rs :
  forall tree tree', attachAll rs tree = Some tree' ->
    forall k, getOwn tree' k
              = option_map
                  (fun n => grow n (map key_of (filter (attached_to k) rs)))
                  (getOwn tree k).
Proof.
  induction rs as [| r rs IH]; intros tree tree' H k; simpl in H.
  - injection H as <-. simpl.
    destruct (getOwn tree k); simpl; [now rewrite grow_nil | reflexivity].
  - destruct (attach tree r) as [tree1 |] eqn:E; [| discriminate].
    rewrite (IH _ _ H k), (attach_getOwn _ _ E k).
    destruct (getOwn tree k) as [n |]; simpl; [| reflexivity].
    rewrite grow_grow. do 2 f_equal.
    destruct (attached_to k r); reflexivity.
Qed.

Lemma attachAll_keys rs :
  forall tree tree', attachAll rs tree = Some tree' ->
                     map fst tree' = map fst tree.
Proof.
  induction rs as [| r rs IH]; intros tree tree' H; simpl in H.
  - now injection H as <-.
  - destruct (attach tree r) as [tree1 |] eqn:E; [| discriminate].
    rewrite (IH _ _ H). eapply attach_keys; eassumption.
Qed.

(** Pushing a reference changes neither which keys the store holds nor
    what the prototype wrapper answers. *)
Lemma attach_Inherited tree r tree' k :
  attach tree r = Some tree' ->
  lookup tree' k = Inherited <-> lookup tree k = Inherited.
Proof.
  intros H. unfold lookup.
  rewrite (attach_getOwn _ _ H k), (attach_getOwn _ _ H prototype_key).
  destruct (getOwn tree k); simpl; [split; discriminate |].
  destruct (getOwn tree prototype_key); simpl; reflexivity.
Qed.

(** The second loop fails exactly where a truthy [pid] reads a value
    that is truthy and no wrapper. *)
Lemma attachAll_Some rs :
  forall tree,
    (forall r, In r rs -> truthy (pid r) = true ->
               lookup tree (property_key (pid r)) <> Inherited) ->
    exists tree', attachAll rs tree = Some tree'.
Proof.
  induction rs as [| r rs IH]; intros tree H; simpl; [eauto |].
  destruct (attach tree r) as [tree1 |] eqn:E.
  - apply IH. intros x Hx Ht.
    rewrite (attach_Inherited _ _ _ E).
    exact (H x (or_intror Hx) Ht).
  - exfalso. unfold attach in E.
    destruct (truthy (pid r)) eqn:Ht; [| discriminate].
    specialize (H r (or_introl eq_refl) Ht).
    destruct (lookup tree (property_key (pid r))); congruence.
Qed.

Lemma attachAll_None rs : forall tree,
  attachAll rs tree = None ->
  exists r, In r rs /\ truthy (pid r) = true
            /\ lookup tree (property_key (pid r)) = Inherited.
Proof.
  induction rs as [| r rs IH]; intros tree H; simpl in H; [discriminate |].
  destruct (attach tree r) as [tree1 |] eqn:E.
  - destruct (IH _ H) as (x & Hx & Ht & Hl).
    exists x. split; [now right |]. split; [assumption |].
    now apply (attach_Inherited _ _ _ E).
  - exists r. split; [now left |]. unfold attach in E.
    destruct (truthy (pid r)); [| discriminate]. split; [reflexivity |].
    destruct (lookup tree (property_key (pid r))); congruence.
Qed.

(** ** [Object.values] *)

Lemma insert_index_In e l x : In x (insert_index e l) <-> x = e \/ In x l.
Proof.
  induction l as [| e' l IH]; simpl.
  - intuition.
  - destruct (fst e <=? fst e')%N; simpl; [intuition |].
    rewrite IH. intuition.
Qed.

Lemma sorted_In (l : list (N * Node)) x :
  In x (fold_right insert_index [] l) <-> In x l.
Proof.
  induction l as [| e l IH]; simpl; [tauto |].
  rewrite insert_index_In, IH. intuition.
Qed.

Lemma Object_values_In tree n :
  In n (Object_values tree) <->
  exists k, k <> prototype_key /\ In (k, n) tree.
Proof.
  unfold Object_values, indexed, named.
  rewrite in_app_iff, in_map_iff. split.
  - intros [([i n'] & Hn & Hin) | Hin].
    + simpl in Hn. subst n'. apply sorted_In, in_flat_map in Hin.
      destruct Hin as ([k n'] & Hin & Hx). simpl in Hx.
      destruct (array_index k) eqn:E; [| destruct Hx].
      destruct Hx as [[= _ ->] | []]. exists k. split; [| assumption].
      intros ->. discriminate.
    + apply in_flat_map in Hin.
      destruct Hin as ([k n'] & Hin & Hx). simpl in Hx.
      destruct (array_index k); [destruct Hx |].
      destruct (String.eqb_spec k prototype_key) as [| Hne]; [destruct Hx |].
      destruct Hx as [-> | []]. eauto.
  - intros (k & Hne & Hin).
    destruct (array_index k) as [i |] eqn:E.
    + left. exists (i, n). split; [reflexivity |].
      apply sorted_In, in_flat_map. exists (k, n). split; [assumption |].
      simpl. rewrite E. now left.
    + right. apply in_flat_map. exists (k, n). split; [assumption |].
      simpl. rewrite E.
      destruct (String.eqb_spec k prototype_key); [contradiction | now left].
Qed.

(* ================================================================== *)
(** * Properties of buildResourceTree                                  *)
(* ================================================================== *)

(** The wrapper under each key, in terms of the input list: the last
    record with that key, holding the keys of the records attached to
    it in list order. *)
Lemma buildResourceTree_store rs f :
  buildResourceTree rs = Returns f ->
  NoDup (map fst (store f))
  /\ forall k,
       getOwn (store f) k
       = option_map
           (fun r => {| resource := r;
                        children := map key_of (filter (attached_to k) rs) |})
           (stored rs k).
Proof.
  unfold buildResourceTree.
  destruct (attachAll rs (allocate rs [])) as [tree' |] eqn:Eb;
    [| discriminate].
  intros [= <-]. simpl. split.
  - rewrite (attachAll_keys _ _ Eb).
    apply allocate_NoDup. constructor.
  - intros k.
    rewrite (attachAll_getOwn _ _ Eb k), allocate_getOwn.
    destruct (stored rs k); reflexivity.
Qed.

(** The returned array holds the wrappers with a falsy [pid] that are
    own properties of [tree]: all of the store but the prototype. *)
Lemma buildResourceTree_roots_In rs f n :
  buildResourceTree rs = Returns f ->
  In n (roots f) <->
  (exists k, k <> prototype_key /\ getOwn (store f) k = Some n)
  /\ truthy (pid (resource n)) = false.
Proof.
  intros H. destruct (buildResourceTree_store _ H) as [Hnd _].
  unfold buildResourceTree in H.
  destruct (attachAll rs (allocate rs [])) as [tree' |]; [| discriminate].
  injection H as <-. simpl in *.
  rewrite filter_In, Object_values_In, negb_true_iff.
  split; intros [(k & Hne & Hk) Hp];
    (split; [exists k; split; [assumption |] | assumption]).
  - now apply In_getOwn.
  - now apply getOwn_In.
Qed.

(** What the second loop reads under a key before any push. *)
Lemma lookup_allocate rs k :
  lookup (allocate rs []) k
  = match stored rs k with
    | Some r => Own (wrap r)
    | None =>
        match stored rs prototype_key with
        | Some p =>
            match wrapper_property (wrap p) k with
            | Some true => Inherited
            | Some false => Missing
            | None => if inherited k then Inherited else Missing
            end
        | None => if inherited k then Inherited else Missing
        end
    end.
Proof.
  unfold lookup. rewrite !allocate_getOwn. simpl.
  destruct (stored rs k); [reflexivity |].
  destruct (stored rs prototype_key); reflexivity.
Qed.

Lemma attachAll_throws rs : forall tree r,
  In r rs -> truthy (pid r) = true ->
  lookup tree (property_key (pid r)) = Inherited ->
  attachAll rs tree = None.
Proof.
  induction rs as [| r0 rs IH]; intros tree r Hin Ht Hl; [destruct Hin |].
  simpl. destruct (attach tree r0) as [tree1 |] eqn:E; [| reflexivity].
  destruct Hin as [-> | Hin].
  - unfold attach in E. rewrite Ht, Hl in E. discriminate.
  - apply (IH tree1 r Hin Ht). now apply (attach_Inherited _ _ _ E).
Qed.

(** The call raises its TypeError exactly when a truthy [pid] reads,
    through the prototype chain of [tree], a truthy value that is not a
    wrapper; it returns otherwise. *)
Lemma buildResourceTree_throws_iff rs :
  buildResourceTree rs = ThrowsTypeError <->
  exists r, In r rs /\ truthy (pid r) = true
            /\ lookup (allocate rs []) (property_key (pid r)) = Inherited.
Proof.
  unfold buildResourceTree. split.
  - destruct (attachAll rs (allocate rs [])) eqn:E; [discriminate |].
    intros _. now apply attachAll_None.
  - intros (r & Hin & Ht & Hl).
    now rewrite (attachAll_throws _ _ _ Hin Ht Hl).
Qed.

(** The call returns when no key is ["__proto__"] and every truthy
    [pid] that names a member of [Object.prototype] is also the key of
    a record. *)
Lemma buildResourceTree_returns rs :
  (forall r, In r rs -> key_of r <> "__proto__") ->
  (forall r, In r rs -> truthy (pid r) = true ->
             inherited (property_key (pid r)) = true ->
             exists x, In x rs /\ key_of x = property_key (pid r)) ->
  exists f, buildResourceTree rs = Returns f.
Proof.
  intros Hproto Hinh. unfold buildResourceTree.
  destruct (attachAll_Some rs (allocate rs [])) as (tree' & Eb).
  - intros r Hin Ht. rewrite lookup_allocate.
    destruct (stored rs (property_key (pid r))) eqn:Es; [discriminate |].
    destruct (stored rs prototype_key) as [p |] eqn:Ep.
    + apply stored_key in Ep. destruct Ep as [Hk Hp].
      now destruct (Hproto p Hp).
    + destruct (inherited _) eqn:Ei; [| discriminate].
      destruct (Hinh r Hin Ht Ei) as (x & Hx & Hk).
      rewrite stored_None in Es. now destruct (Es x Hx).
  - rewrite Eb. eauto.
Qed.

(* ================================================================== *)
(** * Properties of the scanner                                        *)
(* ================================================================== *)

Lemma drop_0 s : drop 0 s = s.
Proof. now destruct s. Qed.

Lemma drop_add a : forall b s, drop (a + b) s = drop b (drop a s).
Proof.
  induction a as [| a IH]; intros b s.
  - reflexivity.
  - destruct s as [| c s]; [now destruct b | apply IH].
Qed.

Lemma prefix_drop p : forall s,
  prefix p s = true -> s = (p ++ drop (String.length p) s)%string.
Proof.
  induction p as [| c p IH]; intros s H; simpl in *.
  - now destruct s.
  - destruct s as [| c' s]; simpl in H; [discriminate |].
    destruct (ascii_dec c c') as [<- | _]; [| discriminate].
    f_equal. now apply IH.
Qed.

Lemma digits_prefix_drop s :
  s = (digits_prefix s ++ drop (String.length (digits_prefix s)) s)%string.
Proof.
  induction s as [| c s IH]; simpl; [reflexivity |].
  destruct (is_digit c); simpl; [now f_equal | reflexivity].
Qed.

Lemma digits_prefix_digits s : all_chars is_digit (digits_prefix s) = true.
Proof.
  induction s as [| c s IH]; simpl; [reflexivity |].
  destruct (is_digit c) eqn:E; simpl; [now rewrite E | reflexivity].
Qed.

(** A match is the literal [getRes(], a non-empty run of digits and a
    closing parenthesis. *)
Lemma match_at_sound s digits :
  match_at s = Some digits ->
  digits <> ""
  /\ all_chars is_digit digits = true
  /\ exists rest, s = ("getRes(" ++ digits ++ ")" ++ rest)%string.
Proof.
  unfold match_at.
  destruct (prefix "getRes(" s) eqn:Ep; [| discriminate].
  set (run := digits_prefix (drop 7 s)).
  destruct ((0 <? String.length run)%nat
            && prefix ")" (drop (7 + String.length run) s)) eqn:E;
    [| discriminate].
  intros [= <-]. apply andb_prop in E. destruct E as [Elen Eclose].
  split; [| split].
  - intros Hnil. rewrite Hnil in Elen. discriminate.
  - apply digits_prefix_digits.
  - apply prefix_drop in Ep. apply prefix_drop in Eclose.
    rewrite drop_add in Eclose.
    exists (drop 1 (drop (String.length run) (drop 7 s))).
    rewrite Ep at 1. change (String.length "getRes(") with 7.
    apply (f_equal (String.append "getRes(")).
    rewrite (digits_prefix_drop (drop 7 s)) at 1. fold run.
    apply (f_equal (String.append run)). exact Eclose.
Qed.

Lemma scan_In s :
  forall pos skip m,
    In m (scan s pos skip) ->
    exists off, index m = pos + off /\ skip <= off
                /\ match_at (drop off s) = Some (group1 m).
Proof.
  induction s as [| c s IH]; intros pos skip m H; simpl in H; [destruct H |].
  destruct skip as [| k].
  - destruct (match_at (String c s)) as [digits |] eqn:E.
    + destruct H as [<- | H].
      * exists 0. simpl. rewrite E. repeat split; lia.
      * apply IH in H. destruct H as (off & Hi & _ & Hm).
        exists (S off). repeat split; [lia | lia | exact Hm].
    + apply IH in H. destruct H as (off & Hi & _ & Hm).
      exists (S off). repeat split; [lia | lia | exact Hm].
  - apply IH in H. destruct H as (off & Hi & Hle & Hm).
    exists (S off). repeat split; [lia | lia | exact Hm].
Qed.

(** Every match of a line is a token of the line, found at its index. *)
Lemma matchAll_token lineText m :
  In m (matchAll lineText) ->
  group1 m <> ""
  /\ all_chars is_digit (group1 m) = true
  /\ exists rest,
       drop (index m) lineText = ("getRes(" ++ group1 m ++ ")" ++ rest)%string.
Proof.
  intros H. apply scan_In in H. destruct H as (off & Hi & _ & Hm).
  simpl in Hi. subst off. now apply match_at_sound.
Qed.

Lemma scan_sorted s : forall pos skip, StronglySorted before (scan s pos skip).
Proof.
  induction s as [| c s IH]; intros pos skip; simpl; [constructor |].
  destruct skip as [| k]; [| apply IH].
  destruct (match_at (String c s)) as [digits |]; [| apply IH].
  constructor; [apply IH |].
  apply Forall_forall. intros m' Hm'.
  apply scan_In in Hm'. destruct Hm' as (off & Hi & Hle & _).
  unfold before, idEnd, idStart. simpl. lia.
Qed.

Lemma StronglySorted_trichotomy (A : Type) (R : A -> A -> Prop) l :
  StronglySorted R l ->
  forall a b, In a l -> In b l -> a = b \/ R a b \/ R b a.
Proof.
  induction 1 as [| x l Hs IH Hall]; intros a b Ha Hb; [destruct Ha |].
  rewrite Forall_forall in Hall.
  destruct Ha as [<- | Ha], Hb as [<- | Hb]; auto.
Qed.

Lemma matchAll_idEnd_inj lineText a b :
  In a (matchAll lineText) -> In b (matchAll lineText) ->
  idEnd a = idEnd b -> a = b.
Proof.
  intros Ha Hb He.
  destruct (StronglySorted_trichotomy (scan_sorted lineText 0 0) _ _ Ha Hb)
    as [E | [E | E]]; [assumption | exfalso ..];
    unfold before, idEnd, idStart in *; lia.
Qed.

Lemma isOnId_spec cursor i m :
  isOnId cursor i m = true <->
  line cursor = i
  /\ idStart m <= character cursor /\ character cursor <= idEnd m.
Proof.
  unfold isOnId.
  rewrite !andb_true_iff, Nat.eqb_eq, !Nat.leb_le. tauto.
Qed.

(** One cursor is on the id of at most one match of a line. *)
Lemma matchAll_isOnId_inj lineText cursor i a b :
  In a (matchAll lineText) -> In b (matchAll lineText) ->
  isOnId cursor i a = true -> isOnId cursor i b = true -> a = b.
Proof.
  intros Ha Hb Hca Hcb.
  apply isOnId_spec in Hca. apply isOnId_spec in Hcb.
  destruct (StronglySorted_trichotomy (scan_sorted lineText 0 0) _ _ Ha Hb)
    as [E | [E | E]]; [assumption | exfalso ..];
    unfold before, idEnd, idStart in *; lia.
Qed.

Lemma search_scan s : forall pos, search s pos = hd_error (scan s pos 0).
Proof.
  induction s as [| c s IH]; intros pos; simpl; [reflexivity |].
  destruct (match_at (String c s)); [reflexivity | apply IH].
Qed.

(** [match] without the [g] flag finds the first match of [matchAll]. *)
Lemma regex_match_matchAll lineText :
  regex_match lineText = hd_error (matchAll lineText).
Proof. apply search_scan. Qed.

(* ================================================================== *)
(** * Properties of the selection handler                              *)
(* ================================================================== *)

Lemma getResourcePath_cases r rs :
  getResourcePath r rs = Diverge
  \/ exists path, getResourcePath r rs = Normal path.
Proof.
  unfold getResourcePath.
  destruct (pathNames_total rs r) as [-> | (names & ->)]; simpl; eauto.
Qed.

Section HandleMatch.

Variables (rs : list Resource) (cursor : Position).

Lemma handleMatch_unresolved i st m :
  findResource rs (group1 m) = None ->
  handleMatch rs cursor i st m = Normal st.
Proof. unfold handleMatch. now intros ->. Qed.

Lemma handleMatch_annotates i st m r path :
  findResource rs (group1 m) = Some r ->
  getResourcePath r rs = Normal path ->
  isOnId cursor i m = false ->
  handleMatch rs cursor i st m
  = Normal {| pending := pending st ++ [annotation i m path];
              status := status st |}.
Proof. unfold handleMatch. now intros -> -> ->. Qed.

Lemma handleMatch_status i st m r path :
  findResource rs (group1 m) = Some r ->
  getResourcePath r rs = Normal path ->
  isOnId cursor i m = true ->
  handleMatch rs cursor i st m
  = Normal {| pending := pending st;
              status := {| text := group1 m ++ ":" ++ path;
                           backgroundColor := warningBackground;
                           foreground := warningForeground;
                           visible := true |} |}.
Proof. unfold handleMatch. intros -> -> ->. now destruct st. Qed.

Lemma handleMatch_diverges i st m r :
  findResource rs (group1 m) = Some r ->
  getResourcePath r rs = Diverge ->
  handleMatch rs cursor i st m = Diverge.
Proof. unfold handleMatch. now intros -> ->. Qed.

(** The two loops are one pass over the occurrences. *)
Lemma handleOccurrences_app a : forall st b,
  handleOccurrences rs cursor st (a ++ b)
  = (st' <- handleOccurrences rs cursor st a ;;
     handleOccurrences rs cursor st' b).
Proof.
  induction a as [| [i m] a IH]; intros st b; simpl; [reflexivity |].
  destruct (handleMatch rs cursor i st m); simpl; auto.
Qed.

Lemma handleMatches_occurrences i ms : forall st,
  handleMatches rs cursor i st ms
  = handleOccurrences rs cursor st (map (pair i) ms).
Proof.
  induction ms as [| m ms IH]; intros st; simpl; [reflexivity |].
  destruct (handleMatch rs cursor i st m); simpl; auto.
Qed.

Lemma handleLines_occurrences ls : forall i st,
  handleLines rs cursor i st ls
  = handleOccurrences rs cursor st (occurrences i ls).
Proof.
  induction ls as [| l ls IH]; intros i st; simpl; [reflexivity |].
  rewrite handleOccurrences_app, handleMatches_occurrences.
  destruct (handleOccurrences _ _ _ _); simpl; auto.
Qed.

(** The three ways a turn of the inner loop ends normally. *)
Lemma handleMatch_Normal i st m st1 :
  handleMatch rs cursor i st m = Normal st1 ->
  (findResource rs (group1 m) = None /\ st1 = st)
  \/ (exists path,
        resolves rs m path /\ isOnId cursor i m = false
        /\ st1 = {| pending := pending st ++ [annotation i m path];
                    status := status st |})
  \/ (exists path,
        resolves rs m path /\ isOnId cursor i m = true
        /\ st1 = {| pending := pending st;
                    status := {| text := group1 m ++ ":" ++ path;
                                 backgroundColor := warningBackground;
                                 foreground := warningForeground;
                                 visible := true |} |}).
Proof.
  intros E.
  destruct (findResource rs (group1 m)) as [r |] eqn:Ef.
  - destruct (getResourcePath_cases r rs) as [Hd | (path & Hp)].
    + rewrite (handleMatch_diverges _ _ _ Ef Hd) in E. discriminate.
    + right. destruct (isOnId cursor i m) eqn:Ec.
      * rewrite (handleMatch_status _ _ _ Ef Hp Ec) in E.
        injection E as <-. right. exists path.
        split; [now exists r | auto].
      * rewrite (handleMatch_annotates _ _ _ Ef Hp Ec) in E.
        injection E as <-. left. exists path.
        split; [now exists r | auto].
  - rewrite (handleMatch_unresolved _ _ _ Ef) in E.
    injection E as <-. now left.
Qed.

Lemma resolves_unique m path path' :
  resolves rs m path -> resolves rs m path' -> path = path'.
Proof. intros (r & Hr & Hp) (r' & Hr' & Hp'). congruence. Qed.

(** What the pass pushes: one annotation per resolved occurrence the
    cursor is not on, and nothing else. *)
Lemma handleOccurrences_pending occs : forall st st',
  handleOccurrences rs cursor st occs = Normal st' ->
  forall d,
    In d (pending st') <->
    In d (pending st)
    \/ exists i m path,
         In (i, m) occs /\ resolves rs m path
         /\ isOnId cursor i m = false /\ d = annotation i m path.
Proof.
  induction occs as [| [i m] occs IH]; intros st st' H d; simpl in H.
  - injection H as <-. split; [auto |].
    intros [H | (i & m & path & [] & _)]. exact H.
  - destruct (handleMatch rs cursor i st m) as [st1 | e |] eqn:E;
      simpl in H; try discriminate.
    rewrite (IH _ _ H d). clear IH H.
    assert (Hst1 : In d (pending st1) <->
                   In d (pending st)
                   \/ exists path, resolves rs m path
                        /\ isOnId cursor i m = false
                        /\ d = annotation i m path).
    { destruct (handleMatch_Normal _ _ _ E)
        as [[Hnone ->] | [(p & Hres & Hc & ->) | (p & Hres & Hc & ->)]];
        simpl.
      - split; [auto |].
        intros [H | (q & (r & Hr & _) & _)]; [exact H | congruence].
      - rewrite in_app_iff. simpl. split.
        + intros [H | [<- | []]]; [now left | right]. exists p. auto.
        + intros [H | (q & Hq & _ & ->)]; [now left |].
          right. left. now rewrite (resolves_unique Hres Hq).
      - split; [auto |].
        intros [H | (q & _ & H & _)]; [exact H | congruence]. }
    rewrite Hst1. split.
    + intros [[H | (path & Hr & Hc & ->)] | (i' & m' & path & Hin & Hrest)].
      * now left.
      * right. exists i, m, path. simpl. auto.
      * right. exists i', m', path. simpl. tauto.
    + intros [H | (i' & m' & path & [[= <- <-] | Hin] & Hr & Hc & ->)].
      * now do 2 left.
      * left. right. exists path. auto.
      * right. exists i', m', path. auto.
Qed.



(** The pass returns when the walks it starts do. *)
Lemma handleOccurrences_returns occs : forall st,
  (forall i m r, In (i, m) occs -> findResource rs (group1 m) = Some r ->
                 exists path, getResourcePath r rs = Normal path) ->
  exists st', handleOccurrences rs cursor st occs = Normal st'.
Proof.
  induction occs as [| [i m] occs IH]; intros st H; simpl; [eauto |].
  assert (Hm : exists st1, handleMatch rs cursor i st m = Normal st1).
  { unfold handleMatch.
    destruct (findResource rs (group1 m)) as [r |] eqn:Ef; [| eauto].
    destruct (H i m r (or_introl eq_refl) Ef) as (path & ->).
    simpl. eauto. }
  destruct Hm as (st1 & ->). simpl.
  apply IH. intros i' m' r Hin. apply (H i' m' r). now right.
Qed.

End HandleMatch.

Lemma occurrences_In ls : forall i0 i m,
  In (i, m) (occurrences i0 ls) <->
  exists lineText,
    i0 <= i /\ nth_error ls (i - i0) = Some lineText
    /\ In m (matchAll lineText).
Proof.
  induction ls as [| l ls IH]; intros i0 i m; simpl.
  - split; [tauto |]. intros (lineText & _ & H & _).
    now destruct (i - i0).
  - rewrite in_app_iff, in_map_iff, IH. split.
    + intros [(m' & [= <- <-] & Hin) | (lineText & Hle & Hn & Hin)].
      * exists l. rewrite Nat.sub_diag. auto.
      * exists lineText. replace (i - i0) with (S (i - S i0)) by lia.
        repeat split; [lia | assumption ..].
    + intros (lineText & Hle & Hn & Hin).
      destruct (i - i0) as [| k] eqn:Ek.
      * injection Hn as ->. left. exists m. split; [f_equal; lia | assumption].
      * right. exists lineText. replace (i - S i0) with k by lia.
        repeat split; [lia | assumption ..].
Qed.

(** One cursor is on the id of at most one occurrence of a document. *)
Lemma occurrences_isOnId_inj ls cursor i m i' m' :
  In (i, m) (occurrences 0 ls) -> In (i', m') (occurrences 0 ls) ->
  isOnId cursor i m = true -> isOnId cursor i' m' = true ->
  (i', m') = (i, m).
Proof.
  intros H H' Hc Hc'.
  assert (i' = i).
  { apply isOnId_spec in Hc, Hc'. destruct Hc, Hc'. congruence. }
  subst i'.
  apply occurrences_In in H, H'.
  destruct H as (l & _ & Hl & Hm), H' as (l' & _ & Hl' & Hm').
  assert (l' = l) by congruence. subst l'.
  f_equal. eapply matchAll_isOnId_inj; eassumption.
Qed.

(* ================================================================== *)
(** * Path resolution: termination and shape                           *)
(* ================================================================== *)

Lemma cycle_walk_fuel fuel : forall path,
  walk_fuel fuel Scenario.cycle (Some Scenario.loop1) path = None
  /\ walk_fuel fuel Scenario.cycle (Some Scenario.loop2) path = None.
Proof.
  induction fuel as [| fuel IH]; intros path; [now split |].
  split.
  - change (walk_fuel fuel Scenario.cycle (Some Scenario.loop2)
              (name Scenario.loop1 :: path) = None).
    apply IH.
  - change (walk_fuel fuel Scenario.cycle (Some Scenario.loop1)
              (name Scenario.loop2 :: path) = None).
    apply IH.
Qed.

(** C1, as stated, fails on the code: on the snapshot
    [{id:1,pid:2},{id:2,pid:1}] the walk of [getResourcePath] from either
    record never leaves its loop, whatever the number of iterations
    granted, so no name sequence is returned. *)
Lemma getResourcePath_cycle_never_returns :
  (forall fuel,
     walk_fuel fuel Scenario.cycle
       (findParent Scenario.cycle (pid Scenario.loop1))
       [name Scenario.loop1] = None)
  /\ (forall names,
        ~ walk Scenario.cycle
            (findParent Scenario.cycle (pid Scenario.loop1))
            [name Scenario.loop1] names)
  /\ getResourcePath Scenario.loop1 Scenario.cycle = Diverge
  /\ getResourcePath Scenario.loop2 Scenario.cycle = Diverge.
Proof.
  split; [| split; [| split]].
  - intros fuel. apply cycle_walk_fuel.
  - intros names Hw.
    apply pathNames_Normal_iff in Hw. discriminate.
  - reflexivity.
  - reflexivity.
Qed.

(** C1, amended: the walk of [getResourcePath] has no guard against
    revisiting a record.  It returns exactly when the chain of parents
    resolved from [r.pid] ends at a record whose [pid] matches no id, and
    then yields a non-empty name sequence; when that chain never ends
    (the records on it form a cycle) the call does not return.  Every
    call is in one of the two cases. *)
Theorem getResourcePath_terminates_iff_chain_ends
  (tree : list Resource) (r : Resource) :
  (forall l, ancestors tree (pid r) l ->
     exists names,
       names <> []
       /\ pathNames r tree = Normal names
       /\ walk tree (findParent tree (pid r)) [name r] names
       /\ getResourcePath r tree = Normal (join "-" names))
  /\ ((forall l, ~ ancestors tree (pid r) l) ->
      getResourcePath r tree = Diverge
      /\ forall fuel,
           walk_fuel fuel tree (findParent tree (pid r)) [name r] = None)
  /\ ((exists l, ancestors tree (pid r) l)
      \/ (forall l, ~ ancestors tree (pid r) l)).
Proof.
  split; [| split].
  - intros l Hl. exists (rev (map name l) ++ [name r]).
    pose proof (pathNames_ancestors r Hl) as Hp.
    repeat split.
    + intros E. apply app_eq_nil in E. destruct E. discriminate.
    + exact Hp.
    + now apply pathNames_Normal_iff.
    + unfold getResourcePath. now rewrite Hp.
  - intros Hno. destruct (pathNames_Diverge r Hno) as [Hd Hf].
    split; [| exact Hf]. unfold getResourcePath. now rewrite Hd.
  - destruct (pathNames_total tree r) as [Hd | (names & Hn)].
    + right. intros l Hl. rewrite (pathNames_ancestors r Hl) in Hd.
      discriminate.
    + left. apply pathNames_Normal_iff in Hn.
      destruct (walk_ancestors Hn _ eq_refl) as (l & Hl & _). eauto.
Qed.

Lemma snapshot_chain_B :
  ancestors Scenario.snapshot (pid Scenario.B) [Scenario.A].
Proof.
  apply ancestors_up; [reflexivity |]. now apply ancestors_root.
Qed.

Lemma cycle_no_chain l : ~ ancestors Scenario.cycle (pid Scenario.loop1) l.
Proof.
  intros Hl. pose proof (pathNames_ancestors Scenario.loop1 Hl) as Hp.
  discriminate.
Qed.

(** Both cases of the amended C1 occur: the chain of [B] ends at [A],
    the chain of the two-record cycle never ends. *)
Lemma getResourcePath_terminates_iff_chain_ends_witness :
  (exists names,
     names <> []
     /\ pathNames Scenario.B Scenario.snapshot = Normal names
     /\ walk Scenario.snapshot
          (findParent Scenario.snapshot (pid Scenario.B))
          [name Scenario.B] names
     /\ getResourcePath Scenario.B Scenario.snapshot
        = Normal (join "-" names))
  /\ getResourcePath Scenario.loop1 Scenario.cycle = Diverge.
Proof.
  split.
  - exact (proj1 (getResourcePath_terminates_iff_chain_ends
                    Scenario.snapshot Scenario.B)
             [Scenario.A] snapshot_chain_B).
  - exact (proj1 (proj1 (proj2 (getResourcePath_terminates_iff_chain_ends
                                  Scenario.cycle Scenario.loop1))
                    cycle_no_chain)).
Defined.

Lemma append_assoc (a b c : string) : ((a ++ b) ++ c = a ++ (b ++ c))%string.
Proof. induction a as [| x a IH]; simpl; [reflexivity | now rewrite IH]. Qed.

(** Joining with a separator, one element at a time. *)
Lemma join_snoc sep xs y :
  xs <> [] -> join sep (xs ++ [y]) = (join sep xs ++ sep ++ y)%string.
Proof.
  unfold join. induction xs as [| x xs IH]; intros Hne; [congruence |].
  destruct xs as [| x' xs].
  - reflexivity.
  - change (String.concat sep ((x :: x' :: xs) ++ [y]))
      with (x ++ sep ++ String.concat sep ((x' :: xs) ++ [y]))%string.
    rewrite IH by discriminate.
    change (String.concat sep (x :: x' :: xs))
      with (x ++ sep ++ String.concat sep (x' :: xs))%string.
    now rewrite !append_assoc.
Qed.




(** Scenario A of the specification. *)
Example getResourcePath_scenario_A :
  getResourcePath Scenario.B Scenario.snapshot = Normal "A-B".
Proof. reflexivity. Qed.

(* ================================================================== *)
(** * The forest: roots and children                                   *)
(* ================================================================== *)


(** The keys in a [children] array are those of the records attached to
    the wrapper. *)
Lemma children_In rs f k n c :
  buildResourceTree rs = Returns f ->
  getOwn (store f) k = Some n ->
  In c (children n) <->
  exists r, In r rs /\ attached_to k r = true /\ key_of r = c.
Proof.
  intros H Hn. destruct (@buildResourceTree_store rs f H) as [_ Hs].
  rewrite Hs in Hn. destruct (stored rs k) as [x |]; [| discriminate].
  injection Hn as <-. simpl. rewrite in_map_iff. split.
  - intros (r & Hk & Hin). apply filter_In in Hin. exists r. tauto.
  - intros (r & Hin & Ha & Hk). exists r. rewrite filter_In. tauto.
Qed.


(** The roots are the wrappers of the kept records with a falsy [pid],
    the prototype apart. *)
Lemma root_iff_stored_falsy rs f r :
  buildResourceTree rs = Returns f ->
  (exists n, In n (roots f) /\ resource n = r) <->
  stored rs (key_of r) = Some r /\ truthy (pid r) = false
  /\ key_of r <> "__proto__".
Proof.
  intros H. destruct (@buildResourceTree_store rs f H) as [_ Hs].
  split.
  - intros (n & Hn & <-).
    apply (@buildResourceTree_roots_In rs f _ H) in Hn.
    destruct Hn as [(k & Hne & Hk) Hp].
    rewrite Hs in Hk.
    destruct (stored rs k) as [x |] eqn:Ex; [| discriminate].
    injection Hk as <-. simpl in *.
    destruct (stored_key _ _ Ex) as [<- _]. auto.
  - intros (Hst & Hp & Hne).
    exists {| resource := r;
              children := map key_of (filter (attached_to (key_of r)) rs) |}.
    split; [| reflexivity].
    apply (@buildResourceTree_roots_In rs f _ H). split; [| exact Hp].
    exists (key_of r). split; [exact Hne |]. now rewrite Hs, Hst.
Qed.





(** Scenario A: one root (id 1) with one child (id 2). *)
Example buildResourceTree_scenario_A :
  exists f,
    buildResourceTree Scenario.snapshot = Returns f
    /\ map (unfold 2 (store f)) (roots f)
       = [ TreeNode_of Scenario.A [ TreeNode_of Scenario.B [] ] ].
Proof. eexists. split; reflexivity. Qed.

(** A record with id ["__proto__"] and no parent is not returned: of
    [{id:'__proto__',pid:null}] and [{id:1,pid:null}] the forest holds
    the second record alone. *)
Example buildResourceTree_prototype_record :
  buildResourceTree [Scenario.hidden_root; Scenario.A]
  = Returns
      {| store := [ ("__proto__", wrap Scenario.hidden_root);
                    ("1", wrap Scenario.A) ];
         roots := [ wrap Scenario.A ] |}.
Proof. reflexivity. Qed.

(** A record attached to the prototype wrapper is reachable from no
    root; a [pid] that reads a property of the prototype wrapper raises
    the TypeError. *)
Example buildResourceTree_prototype_parent :
  buildResourceTree
    [ Scenario.hidden_root;
      {| id := IdNumber 1; pid := Str "__proto__"; name := "A"; code := "" |} ]
  = Returns
      {| store :=
           [ ("__proto__",
              {| resource := Scenario.hidden_root; children := ["1"] |});
             ("1", wrap {| id := IdNumber 1; pid := Str "__proto__";
                           name := "A"; code := "" |}) ];
         roots := [] |}
  /\ buildResourceTree
       [ Scenario.hidden_root;
         {| id := IdNumber 1; pid := Str "name"; name := "A"; code := "" |} ]
     = ThrowsTypeError.
Proof. split; reflexivity. Qed.

(** C8: in every forest [buildResourceTree] returns (the call raises a
    TypeError otherwise and there is no forest), the [children] array of
    the wrapper under key [k] lists the records attached to [k] (truthy
    [pid] naming [k]) in the order of the input list, neither sorted nor
    reordered; each reference leads to the wrapper kept under that
    child's key, which with unique ids is the wrapper of the child
    itself.  Every root is such a wrapper.  The call starts from a
    fresh object and reads its argument alone: the wrappers of the
    store are given by the input list, and so is the result. *)
Theorem buildResourceTree_children_order
  (rs : list Resource) (f : Forest) :
  buildResourceTree rs = Returns f ->
  (forall k n, getOwn (store f) k = Some n ->
     children n = map key_of (filter (attached_to k) rs)
     /\ (forall c, In c (children n) ->
           exists cn, getOwn (store f) c = Some cn
                      /\ stored rs c = Some (resource cn))
     /\ (NoDup (map key_of rs) ->
         map (fun c => option_map resource (getOwn (store f) c)) (children n)
         = map Some (filter (attached_to k) rs)))
  /\ (forall n, In n (roots f) -> exists k, getOwn (store f) k = Some n)
  /\ (forall k,
        getOwn (store f) k
        = option_map
            (fun r => {| resource := r;
                         children := map key_of (filter (attached_to k) rs) |})
            (stored rs k))
  /\ (forall f', buildResourceTree rs = Returns f' -> f' = f).
Proof.
  intros H. destruct (@buildResourceTree_store rs f H) as [_ Hs].
  split; [| split; [| split]].
  - intros k n Hn.
    assert (Hch : children n = map key_of (filter (attached_to k) rs)).
    { rewrite Hs in Hn. destruct (stored rs k); [| discriminate].
      now injection Hn as <-. }
    split; [exact Hch | split].
    + intros c Hc. apply (@children_In rs f k n _ H Hn) in Hc.
      destruct Hc as (r & Hr & _ & <-).
      destruct (stored rs (key_of r)) as [x |] eqn:Ex.
      * eexists. rewrite Hs, Ex. simpl. split; reflexivity.
      * rewrite stored_None in Ex. now destruct (Ex r Hr).
    + intros Hnd. rewrite Hch, map_map.
      apply map_ext_in. intros r Hr. apply filter_In in Hr.
      destruct Hr as [Hr _].
      now rewrite Hs, (@stored_unique rs Hnd r Hr).
  - intros n Hn. apply (@buildResourceTree_roots_In rs f _ H) in Hn.
    destruct Hn as [(k & _ & Hk) _]. eauto.
  - exact Hs.
  - intros f' H'. congruence.
Qed.

Lemma buildResourceTree_children_order_witness :
  exists f n,
    buildResourceTree Scenario.siblings = Returns f
    /\ getOwn (store f) "1" = Some n
    /\ children n = ["30"; "10"; "20"]
    /\ children n = map key_of (filter (attached_to "1") Scenario.siblings).
Proof.
  eexists. eexists.
  split; [reflexivity | split; [reflexivity | split; [reflexivity |]]].
  exact (proj1 (proj1 (@buildResourceTree_children_order Scenario.siblings _ eq_refl)
                  "1" _ eq_refl)).
Defined.







(* ================================================================== *)
(** * Looking a digit run up                                           *)
(* ================================================================== *)

Lemma find_first (A : Type) (test : A -> bool) l : forall x,
  find test l = Some x ->
  exists front back,
    l = front ++ x :: back /\ test x = true
    /\ forall y, In y front -> test y = false.
Proof.
  induction l as [| a l IH]; intros x H; simpl in H; [discriminate |].
  destruct (test a) eqn:E.
  - injection H as <-. exists [], l. repeat split; [assumption |].
    intros y [].
  - destruct (IH x H) as (front & back & -> & Hx & Hfront).
    exists (a :: front), back. repeat split; [assumption |].
    intros y [<- | Hy]; auto.
Qed.

(** C10: the selection handler and the hover provider look the digit
    run [d] of a token up with the same expression, which yields the
    first record of the snapshot whose [id.toString()] is the string [d]
    itself.  Hence a record with the string id ["007"] answers to
    [getRes(007)] only, and a record with the number id 7 to [getRes(7)]
    only. *)
Theorem findResource_first_toString (rs : list Resource) (d : string) :
  (forall r, findResource rs d = Some r ->
     exists front back,
       rs = front ++ r :: back
       /\ toString (id r) = d
       /\ forall x, In x front -> toString (id x) <> d)
  /\ (findResource rs d = None <->
      forall x, In x rs -> toString (id x) <> d)
  /\ (forall r, findResource rs d = Some r ->
        (id r = IdString "007" -> d = "007" /\ d <> "7")
        /\ (id r = IdNumber 7 -> d = "7" /\ d <> "007"))
  /\ (forall cursor i st m,
        group1 m = d ->
        findResource rs d = None ->
        handleMatch rs cursor i st m = Normal st)
  /\ (forall doc position lineText m,
        nth_error (lines doc) (line position) = Some lineText ->
        regex_match lineText = Some m ->
        group1 m = d ->
        findResource rs d = None ->
        provideHover rs doc position = Normal None)
  /\ (forall cursor i st m r path,
        group1 m = d ->
        findResource rs d = Some r ->
        getResourcePath r rs = Normal path ->
        isOnId cursor i m = false ->
        handleMatch rs cursor i st m
        = Normal {| pending := pending st ++ [annotation i m path];
                    status := status st |})
  /\ (forall doc position lineText m r path,
        nth_error (lines doc) (line position) = Some lineText ->
        regex_match lineText = Some m ->
        group1 m = d ->
        findResource rs d = Some r ->
        getResourcePath r rs = Normal path ->
        provideHover rs doc position
        = Normal (Some [ Codeblock path "typescript";
                         Text newline;
                         Codeblock (code r) "css" ])).
Proof.
  split; [| split; [| split; [| split; [| split; [| split]]]]].
  - intros r H. unfold findResource in H.
    destruct (find_first _ _ H) as (front & back & -> & Hr & Hfront).
    exists front, back. repeat split.
    + now apply String.eqb_eq.
    + intros x Hx. apply String.eqb_neq. now apply Hfront.
  - unfold findResource. split.
    + intros H x Hx. apply String.eqb_neq. exact (find_none _ _ H x Hx).
    + intros H. destruct (find _ rs) as [x |] eqn:E; [| reflexivity].
      apply find_some in E. destruct E as [Hx E].
      apply String.eqb_eq in E. now destruct (H x Hx).
  - intros r H. unfold findResource in H. apply find_some in H.
    destruct H as [_ H]. apply String.eqb_eq in H.
    split; intros Hid; rewrite Hid in H; vm_compute in H; subst d;
      (split; [reflexivity | discriminate]).
  - intros cursor i st m <- H. now apply handleMatch_unresolved.
  - intros doc position lineText m Hl Hm <- H.
    unfold provideHover, lineAt. rewrite Hl. simpl. now rewrite Hm, H.
  - intros cursor i st m r path <- Hr Hp Hc.
    now apply handleMatch_annotates with (r := r).
  - intros doc position lineText m r path Hl Hm <- Hr Hp.
    unfold provideHover, lineAt. rewrite Hl. simpl. now rewrite Hm, Hr, Hp.
Qed.

(** The tokens [getRes(007)] and [getRes(7)] against the string id
    ["007"] and the number id 7. *)
Lemma findResource_first_toString_witness :
  ("007" = "007" /\ "007" <> "7")
  /\ ("7" = "7" /\ "7" <> "007")
  /\ provideHover [Scenario.agent] (Scenario.doc ["getRes(7)"])
       {| line := 0; character := 7 |} = Normal None
  /\ provideHover [Scenario.seven] (Scenario.doc ["getRes(007)"])
       {| line := 0; character := 7 |} = Normal None.
Proof.
  pose proof (findResource_first_toString
                [Scenario.seven; Scenario.agent] "007") as H007.
  pose proof (findResource_first_toString
                [Scenario.agent; Scenario.seven] "7") as H7.
  split; [| split; [| split]].
  - exact (proj1 (proj1 (proj2 (proj2 H007)) Scenario.agent eq_refl) eq_refl).
  - exact (proj2 (proj1 (proj2 (proj2 H7)) Scenario.seven eq_refl) eq_refl).
  - exact (proj1 (proj2 (proj2 (proj2 (proj2
             (findResource_first_toString [Scenario.agent] "7")))))
             (Scenario.doc ["getRes(7)"]) {| line := 0; character := 7 |}
             "getRes(7)" {| index := 0; group1 := "7" |}
             eq_refl eq_refl eq_refl eq_refl).
  - exact (proj1 (proj2 (proj2 (proj2 (proj2
             (findResource_first_toString [Scenario.seven] "007")))))
             (Scenario.doc ["getRes(007)"]) {| line := 0; character := 7 |}
             "getRes(007)" {| index := 0; group1 := "007" |}
             eq_refl eq_refl eq_refl eq_refl).
Defined.

Example tokens_007_and_7 :
  matchAll "getRes(007)" = [ {| index := 0; group1 := "007" |} ]
  /\ matchAll "getRes(7)" = [ {| index := 0; group1 := "7" |} ]
  /\ findResource [Scenario.seven; Scenario.agent] "007" = Some Scenario.agent
  /\ findResource [Scenario.agent; Scenario.seven] "7" = Some Scenario.seven.
Proof. repeat split. Qed.

(* ================================================================== *)
(** * The selection handler on a whole document                        *)
(* ================================================================== *)

Lemma occurrences_nth ls i m :
  In (i, m) (occurrences 0 ls) <->
  exists lineText, nth_error ls i = Some lineText /\ In m (matchAll lineText).
Proof.
  rewrite occurrences_In. rewrite Nat.sub_0_r.
  split; intros (l & H); exists l; intuition lia.
Qed.

(** On a JavaScript document the handler is the pass over the
    occurrences, started with no decoration. *)
Lemma handleSelectionChange_javascript rs editor sb :
  languageId (document editor) = "javascript" ->
  handleSelectionChange rs editor sb
  = (st <- handleOccurrences rs (active editor)
             {| pending := []; status := sb |}
             (occurrences 0 (lines (document editor))) ;;
     Normal ({| document := document editor;
                active := active editor;
                decorations := pending st |},
             status st)).
Proof.
  intros Hl. unfold handleSelectionChange.
  rewrite Hl, handleLines_occurrences. reflexivity.
Qed.

(** No decoration is placed behind the id of an occurrence that pushed
    none. *)
Lemma no_annotation_at rs cursor ls st st' i lineText m :
  pending st = [] ->
  handleOccurrences rs cursor st (occurrences 0 ls) = Normal st' ->
  nth_error ls i = Some lineText ->
  In m (matchAll lineText) ->
  (forall path, resolves rs m path -> isOnId cursor i m = true) ->
  forall d, In d (pending st') ->
            range_start (range d) <> {| line := i; character := idEnd m |}.
Proof.
  intros Hnil H Hl Hm Hskip d Hd Hpos.
  apply (@handleOccurrences_pending rs cursor _ _ _ H d) in Hd.
  rewrite Hnil in Hd.
  destruct Hd as [[] | (i' & m' & path & Hin & Hres & Hc & ->)].
  simpl in Hpos. injection Hpos as -> He.
  apply occurrences_nth in Hin. destruct Hin as (l' & Hl' & Hm').
  assert (l' = lineText) by congruence. subst l'.
  assert (m' = m) by (eapply matchAll_idEnd_inj; eassumption). subst m'.
  rewrite (Hskip path Hres) in Hc. discriminate.
Qed.






(** Scenario B: the cursor at column 0, one annotation ["A-B"] right
    behind the digit.  Scenario C: the cursor on the digit, the status
    text and no annotation. *)
Example handleSelectionChange_scenarios_B_C :
  handleSelectionChange Scenario.snapshot
    (Scenario.editor ["x = getRes(2)"] 0 0) Scenario.idle
  = Normal
      ({| document := Scenario.doc ["x = getRes(2)"];
          active := {| line := 0; character := 0 |};
          decorations :=
            [ {| range :=
                   {| range_start := {| line := 0; character := 12 |};
                      range_end := {| line := 0; character := 12 |} |};
                 contentText := "A-B";
                 color := "gray" |} ] |},
       Scenario.idle)
  /\ handleSelectionChange Scenario.snapshot
       (Scenario.editor ["x = getRes(2)"] 0 11) Scenario.idle
     = Normal
         ({| document := Scenario.doc ["x = getRes(2)"];
             active := {| line := 0; character := 11 |};
             decorations := [] |},
          {| text := "2:A-B";
             backgroundColor := warningBackground;
             foreground := warningForeground;
             visible := true |}).
Proof. split; reflexivity. Qed.

(* ================================================================== *)
(** * Unknown ids                                                      *)
(* ================================================================== *)

Lemma handleOccurrences_unresolved rs cursor occs : forall st,
  (forall i m, In (i, m) occs -> findResource rs (group1 m) = None) ->
  handleOccurrences rs cursor st occs = Normal st.
Proof.
  induction occs as [| [i m] occs IH]; intros st H; simpl; [reflexivity |].
  rewrite handleMatch_unresolved by (apply (H i m); now left).
  simpl. apply IH. intros i' m' Hin. apply (H i' m'). now right.
Qed.

(** What the code does for an occurrence whose digit run is the
    [toString] of no record id.  Its turn in the loop of the handler
    ends normally
    and leaves the pending decorations and the status bar item as they
    were; whenever the handler returns on a JavaScript document, no
    decoration sits behind the digits of that occurrence; a document in
    which no occurrence resolves gets no decoration and an unchanged
    status bar item; and the hover provider, which looks at the first
    token of the hovered line, returns no hover when that token is
    unresolved. *)
Lemma unresolved_occurrence_skipped
  (rs : list Resource) (m : Match) :
  findResource rs (group1 m) = None ->
  (forall cursor i st, handleMatch rs cursor i st m = Normal st)
  /\ (forall editor statusBarItem i lineText editor' statusBarItem',
        languageId (document editor) = "javascript" ->
        nth_error (lines (document editor)) i = Some lineText ->
        In m (matchAll lineText) ->
        handleSelectionChange rs editor statusBarItem
        = Normal (editor', statusBarItem') ->
        forall d, In d (decorations editor') ->
          range_start (range d) <> {| line := i; character := idEnd m |})
  /\ (forall editor statusBarItem,
        languageId (document editor) = "javascript" ->
        (forall i' l' m',
           nth_error (lines (document editor)) i' = Some l' ->
           In m' (matchAll l') -> findResource rs (group1 m') = None) ->
        handleSelectionChange rs editor statusBarItem
        = Normal ({| document := document editor;
                     active := active editor;
                     decorations := [] |}, statusBarItem))
  /\ (forall doc position lineText,
        nth_error (lines doc) (line position) = Some lineText ->
        regex_match lineText = Some m ->
        provideHover rs doc position = Normal None).
Proof.
  intros Hnone. split; [| split; [| split]].
  - intros cursor i st. now apply handleMatch_unresolved.
  - intros editor sb i lineText editor' sb' Hjs Hl Hm Hrun d Hd.
    rewrite (handleSelectionChange_javascript rs editor sb Hjs) in Hrun.
    destruct (handleOccurrences _ _ _ _) as [st' | e |] eqn:E;
      simpl in Hrun; try discriminate.
    injection Hrun as <- <-. simpl in Hd.
    eapply no_annotation_at; try eassumption; [reflexivity |].
    intros path (r & Hr & _). congruence.
  - intros editor sb Hjs Hall.
    rewrite (handleSelectionChange_javascript rs editor sb Hjs).
    rewrite handleOccurrences_unresolved; [reflexivity |].
    intros i' m' Hin. apply occurrences_nth in Hin.
    destruct Hin as (l' & Hl' & Hm'). eapply Hall; eassumption.
  - intros doc position lineText Hl Hm.
    unfold provideHover, lineAt. rewrite Hl. simpl.
    now rewrite Hm, Hnone.
Qed.

(** Scenario D: [getRes(9)] on the snapshot of Scenario A, cursor on
    the digit. *)
Example unresolved_occurrence_scenario_D :
  (forall cursor i st,
     handleMatch Scenario.snapshot cursor i st
       {| index := 4; group1 := "9" |} = Normal st)
  /\ handleSelectionChange Scenario.snapshot
       (Scenario.editor ["x = getRes(9)"] 0 11) Scenario.idle
     = Normal (Scenario.editor ["x = getRes(9)"] 0 11, Scenario.idle)
  /\ provideHover Scenario.snapshot (Scenario.doc ["x = getRes(9)"])
       {| line := 0; character := 11 |} = Normal None.
Proof.
  pose proof (@unresolved_occurrence_skipped Scenario.snapshot
                {| index := 4; group1 := "9" |} eq_refl) as H.
  split; [exact (proj1 H) | split].
  - apply (proj1 (proj2 (proj2 H))
             (Scenario.editor ["x = getRes(9)"] 0 11) Scenario.idle eq_refl).
    intros [| [| i']] l' m' Hl Hm; simpl in Hl; try discriminate.
    injection Hl as <-. destruct Hm as [<- | []]. reflexivity.
  - exact (proj2 (proj2 (proj2 H))
             (Scenario.doc ["x = getRes(9)"])
             {| line := 0; character := 11 |} "x = getRes(9)"
             eq_refl eq_refl).
Qed.

(* ================================================================== *)
(** * The hover provider                                               *)
(* ================================================================== *)

(** The hover is built from the first token of the hovered line: two
    code blocks, the path then the code of the record, with a newline in
    between. *)
Lemma provideHover_first_token rs doc position lineText m r path :
  nth_error (lines doc) (line position) = Some lineText ->
  regex_match lineText = Some m ->
  findResource rs (group1 m) = Some r ->
  getResourcePath r rs = Normal path ->
  provideHover rs doc position
  = Normal (Some [ Codeblock path "typescript";
                   Text newline;
                   Codeblock (code r) "css" ]).
Proof.
  intros Hl Hm Hr Hp. unfold provideHover, lineAt.
  rewrite Hl. simpl. now rewrite Hm, Hr, Hp.
Qed.

(** The character of the position is never read. *)
Lemma provideHover_any_character rs doc l c c' :
  provideHover rs doc {| line := l; character := c |}
  = provideHover rs doc {| line := l; character := c' |}.
Proof. reflexivity. Qed.

(** C6 on the code: on the line [getRes(1) getRes(9)], with the
    snapshot of Scenario A, the digit run of the second occurrence
    matches no record id.  The handler passes it over: the only
    annotation is that of the first occurrence and the status bar item
    is as before.  A hover at character 17, on the digit of the second
    occurrence, is nevertheless answered with a payload, the path and
    the code of record 1: the provider never reads the hovered
    character and looks the first token of the line up. *)
Theorem provideHover_unresolved_token_shows_first :
  matchAll "getRes(1) getRes(9)"
  = [ {| index := 0; group1 := "1" |}; {| index := 10; group1 := "9" |} ]
  /\ findResource Scenario.snapshot "9" = None
  /\ isOnId {| line := 0; character := 17 |} 0
       {| index := 10; group1 := "9" |} = true
  /\ isOnId {| line := 0; character := 17 |} 0
       {| index := 0; group1 := "1" |} = false
  /\ handleSelectionChange Scenario.snapshot
       (Scenario.editor ["getRes(1) getRes(9)"] 0 17) Scenario.idle
     = Normal
         ({| document := Scenario.doc ["getRes(1) getRes(9)"];
             active := {| line := 0; character := 17 |};
             decorations :=
               [ {| range :=
                      {| range_start := {| line := 0; character := 8 |};
                         range_end := {| line := 0; character := 8 |} |};
                    contentText := "A";
                    color := "gray" |} ] |},
          Scenario.idle)
  /\ provideHover Scenario.snapshot (Scenario.doc ["getRes(1) getRes(9)"])
       {| line := 0; character := 17 |}
     = Normal (Some [ Codeblock "A" "typescript";
                      Text newline;
                      Codeblock (code Scenario.A) "css" ]).
Proof.
  repeat split.
Qed.

(** C7 on the code: on the line [getRes(1) getRes(2)] a hover at
    character 17, the digit of the second token, is answered with the
    path and the code of record 1, the first token of the line, where
    the claim asks for those of record 2 (["A-B"] and [".b {}"]). *)
Theorem provideHover_second_token_shows_first :
  matchAll "getRes(1) getRes(2)"
  = [ {| index := 0; group1 := "1" |}; {| index := 10; group1 := "2" |} ]
  /\ isOnId {| line := 0; character := 17 |} 0
       {| index := 10; group1 := "2" |} = true
  /\ isOnId {| line := 0; character := 17 |} 0
       {| index := 0; group1 := "1" |} = false
  /\ provideHover Scenario.snapshot (Scenario.doc ["getRes(1) getRes(2)"])
       {| line := 0; character := 17 |}
     = Normal (Some [ Codeblock "A" "typescript";
                      Text newline;
                      Codeblock (code Scenario.A) "css" ])
  /\ findResource Scenario.snapshot "2" = Some Scenario.B
  /\ getResourcePath Scenario.B Scenario.snapshot = Normal "A-B"
  /\ code Scenario.B <> code Scenario.A.
Proof.
  repeat split. discriminate.
Qed.

(* ================================================================== *)
(** * Refreshing the snapshot                                          *)
(* ================================================================== *)

(** C5, as stated, fails on the code.  With the server unreachable the
    [catch] block absorbs the error: the call completes normally, and
    the refresh command goes on to announce a refresh.  With a failing
    [client.close()] the call does fail, yet the snapshot has been
    replaced. *)
Lemma fetchResources_failure_not_propagated :
  query Scenario.unreachable = Throw (DriverError "ECONNREFUSED")
  /\ completion (fetchResources Scenario.unreachable
                   (Scenario.world [Scenario.A])) = Normal tt
  /\ completion (refreshCommand Scenario.unreachable
                   (Scenario.world [Scenario.A])) = Normal tt
  /\ In (ShowInformationMessage "resources data refreshed.")
        (effects (final (refreshCommand Scenario.unreachable
                           (Scenario.world [Scenario.A]))))
  /\ completion (fetchResources Scenario.close_fails
                   (Scenario.world [Scenario.A]))
     = Throw (DriverError "close")
  /\ resources (final (fetchResources Scenario.close_fails
                         (Scenario.world [Scenario.A])))
     = Scenario.snapshot
  /\ Scenario.snapshot <> [Scenario.A].
Proof.
  repeat split.
  - simpl. tauto.
  - discriminate.
Qed.

(** The fields of a run, by how the query ends. *)
Lemma fetchResources_fields (db : Mongo) (w : World) :
  resources (final (fetchResources db w))
  = match query db with
    | Normal found => found
    | _ => resources w
    end
  /\ Forall (fun s => resources s = resources w
                      \/ query db = Normal (resources s))
            (suspended (fetchResources db w))
  /\ completion (fetchResources db w)
     = match query db with
       | Diverge => Diverge
       | _ => close db
       end
  /\ effects (final (fetchResources db w))
     = match query db with
       | Throw e =>
           effects w
           ++ [ ConsoleError "Error fetching resources:" e; fetch_failed ]
       | _ => effects w
       end.
Proof.
  destruct db as [c t cl], w as [rs es].
  unfold query, fetch_failed.
  destruct c as [[] | ec |], t as [found | et |], cl as [[] | ecl |];
    cbn; rewrite <- ?app_assoc; cbn;
    repeat match goal with
           | |- _ /\ _ => split
           | |- Forall _ _ => constructor
           | |- _ \/ _ => first [left; reflexivity | right; reflexivity]
           | |- _ = _ => reflexivity
           end.
Qed.

(** C5, amended: [fetchResources] replaces the stored list exactly when
    [connect] and [find().toArray()] both succeed, and then by the whole
    result.  While the call is suspended the stored list is the previous
    one or, once assigned, the complete new one.  If one of the two
    fails, the previous list is kept unchanged, the error is logged and
    an error message is shown to the user, and the call itself ends as
    [client.close()] does, normally when closing succeeds: the caller is
    not told.  The handler and the hover provider then work on the
    previous list. *)
Theorem fetchResources_snapshot (db : Mongo) (w : World) :
  resources (final (fetchResources db w))
  = match query db with
    | Normal found => found
    | _ => resources w
    end
  /\ Forall (fun s => resources s = resources w
                      \/ query db = Normal (resources s))
            (suspended (fetchResources db w))
  /\ (forall e, query db = Throw e ->
        resources (final (fetchResources db w)) = resources w
        /\ Forall (fun s => resources s = resources w)
                  (suspended (fetchResources db w))
        /\ effects (final (fetchResources db w))
           = effects w
             ++ [ ConsoleError "Error fetching resources:" e; fetch_failed ]
        /\ completion (fetchResources db w) = close db
        /\ (forall editor sb,
              handleSelectionChange
                (resources (final (fetchResources db w))) editor sb
              = handleSelectionChange (resources w) editor sb)
        /\ (forall doc position,
              provideHover
                (resources (final (fetchResources db w))) doc position
              = provideHover (resources w) doc position))
  /\ (forall found, query db = Normal found ->
        resources (final (fetchResources db w)) = found
        /\ effects (final (fetchResources db w)) = effects w
        /\ completion (fetchResources db w) = close db)
  /\ (query db = Diverge ->
        resources (final (fetchResources db w)) = resources w
        /\ completion (fetchResources db w) = Diverge).
Proof.
  destruct (fetchResources_fields db w) as (Hres & Hsusp & Hcompl & Heff).
  split; [exact Hres | split; [exact Hsusp |]].
  split; [| split].
  - intros e He. rewrite He in Hres, Hcompl, Heff.
    assert (Hkept : Forall (fun s => resources s = resources w)
                           (suspended (fetchResources db w))).
    { eapply Forall_impl; [| exact Hsusp].
      intros s [H | H]; [exact H | congruence]. }
    split; [exact Hres | split; [exact Hkept | split; [exact Heff |]]].
    split; [exact Hcompl | split]; intros; now rewrite Hres.
  - intros found Hf. rewrite Hf in Hres, Hcompl, Heff. auto.
  - intros Hd. rewrite Hd in Hres, Hcompl. auto.
Qed.

(** Scenario E: a refresh that fails after a successful one. *)
Lemma fetchResources_snapshot_witness :
  resources (final (fetchResources Scenario.unreachable
                      (final (fetchResources Scenario.healthy
                                (Scenario.world [])))))
  = Scenario.snapshot
  /\ completion (fetchResources Scenario.unreachable
                   (final (fetchResources Scenario.healthy
                             (Scenario.world []))))
     = Normal tt.
Proof.
  pose proof (proj1 (proj2 (proj2
                (fetchResources_snapshot Scenario.unreachable
                   (final (fetchResources Scenario.healthy
                             (Scenario.world []))))))
                (DriverError "ECONNREFUSED") eq_refl) as H.
  split.
  - exact (proj1 H).
  - exact (proj1 (proj2 (proj2 (proj2 H)))).
Defined.

(* ================================================================== *)
(** * The scanner finds the tokens of a line, all of them              *)
(* ================================================================== *)

Lemma length_append s : forall t,
  String.length (s ++ t) = String.length s + String.length t.
Proof.
  induction s as [| c s IH]; intros t; simpl; [reflexivity |].
  now rewrite IH.
Qed.

Lemma length_drop n : forall s,
  String.length (drop n s) = String.length s - n.
Proof.
  induction n as [| n IH]; intros s; [now rewrite drop_0, Nat.sub_0_r |].
  destruct s as [| c s]; [reflexivity | apply IH].
Qed.

Lemma drop_append s : forall t, drop (String.length s) (s ++ t) = t.
Proof.
  induction s as [| c s IH]; intros t; [apply drop_0 | apply IH].
Qed.

Lemma is_digit_not_g c : is_digit c = true -> c <> "g"%char.
Proof. intros H ->. discriminate H. Qed.

Lemma digits_prefix_run d : forall rest,
  all_chars is_digit d = true ->
  digits_prefix (d ++ ")" ++ rest) = d.
Proof.
  induction d as [| c d IH]; intros rest H; simpl in *; [reflexivity |].
  apply andb_prop in H. destruct H as [Hc Hd].
  rewrite Hc. f_equal. now apply IH.
Qed.

Lemma prefix_append p : forall t, prefix p (p ++ t) = true.
Proof.
  induction p as [| c p IH]; intros t; simpl.
  - now destruct t.
  - destruct (ascii_dec c c) as [_ | Hne]; [apply IH | congruence].
Qed.

(** The pattern matches wherever a token is written. *)
Lemma match_at_complete d rest :
  d <> "" -> all_chars is_digit d = true ->
  match_at ("getRes(" ++ d ++ ")" ++ rest) = Some d.
Proof.
  intros Hne Hd. unfold match_at.
  rewrite prefix_append.
  change (drop 7 ("getRes(" ++ d ++ ")" ++ rest)) with (d ++ ")" ++ rest)%string.
  rewrite (@digits_prefix_run d rest Hd).
  replace (drop (7 + String.length d) ("getRes(" ++ d ++ ")" ++ rest))
    with (")" ++ rest)%string.
  - rewrite prefix_append.
    destruct d as [| c d]; [congruence | reflexivity].
  - rewrite drop_add.
    change (drop 7 ("getRes(" ++ d ++ ")" ++ rest)) with (d ++ ")" ++ rest)%string.
    now rewrite drop_append.
Qed.

(** A string that does not start with [g] matches nothing. *)
Lemma match_at_starts_with_g s :
  starts_with_g s = false -> match_at s = None.
Proof.
  intros H. destruct (match_at s) as [d |] eqn:E; [| reflexivity].
  apply match_at_sound in E. destruct E as (_ & _ & rest & ->).
  discriminate H.
Qed.

Lemma digits_no_g d : forall rest j,
  all_chars is_digit d = true -> j <= String.length d ->
  starts_with_g (drop j (d ++ ")" ++ rest)) = false.
Proof.
  induction d as [| c d IH]; intros rest j H Hj; simpl in *.
  - assert (j = 0) by lia. subst j. reflexivity.
  - apply andb_prop in H. destruct H as [Hc Hd].
    destruct j as [| j].
    + simpl. apply Ascii.eqb_neq. now apply is_digit_not_g.
    + apply IH; [assumption | lia].
Qed.

(** No token starts inside a token, its first character excepted. *)
Lemma no_match_inside c s d :
  match_at (String c s) = Some d ->
  forall j, j < 7 + String.length d -> match_at (drop j s) = None.
Proof.
  intros E j Hj. apply match_at_starts_with_g.
  apply match_at_sound in E. destruct E as (_ & Hd & rest & E).
  injection E as -> ->.
  do 6 (destruct j as [| j]; [reflexivity |]).
  change (starts_with_g (drop j (d ++ ")" ++ rest)) = false).
  apply digits_no_g; [assumption | lia].
Qed.

Lemma scan_complete s : forall pos skip off d,
  (forall j, j < skip -> match_at (drop j s) = None) ->
  match_at (drop off s) = Some d ->
  In {| index := pos + off; group1 := d |} (scan s pos skip).
Proof.
  induction s as [| c s IH]; intros pos skip off d Hskip Hm.
  - destruct off; discriminate Hm.
  - simpl. destruct skip as [| k].
    + destruct off as [| off].
      * rewrite drop_0 in Hm. rewrite Hm, Nat.add_0_r. now left.
      * replace (pos + S off) with (S pos + off) by lia.
        destruct (match_at (String c s)) as [d0 |] eqn:E.
        -- right. apply IH; [| exact Hm].
           now apply no_match_inside with (c := c).
        -- apply IH; [| exact Hm]. intros j Hj. lia.
    + destruct off as [| off].
      * rewrite (Hskip 0) in Hm by lia. discriminate.
      * replace (pos + S off) with (S pos + off) by lia.
        apply IH; [| exact Hm].
        intros j Hj. apply (Hskip (S j)). lia.
Qed.

(** X1: [matchAll] returns exactly the tokens of the line.  A match
    with index [i] and digits [d] is reported iff [d] is a non-empty run
    of decimal digits and the line reads [getRes(], [d], [)] from offset
    [i] on: nothing is reported that is not a token, and no token is
    missed, wherever it stands and whatever surrounds it. *)
Theorem matchAll_tokens (lineText : string) (m : Match) :
  In m (matchAll lineText) <->
  group1 m <> ""
  /\ all_chars is_digit (group1 m) = true
  /\ exists rest,
       drop (index m) lineText
       = ("getRes(" ++ group1 m ++ ")" ++ rest)%string.
Proof.
  split; [apply matchAll_token |].
  intros (Hne & Hd & rest & E).
  destruct m as [i d]. cbn [index group1] in *.
  apply (@scan_complete lineText 0 0 i d).
  - intros j Hj. lia.
  - rewrite E. now apply match_at_complete.
Qed.

(** The token in the middle of a line of text. *)
Lemma matchAll_tokens_witness :
  In {| index := 8; group1 := "42" |} (matchAll "let x = getRes(42) + 1;").
Proof.
  apply (proj2 (matchAll_tokens "let x = getRes(42) + 1;"
                  {| index := 8; group1 := "42" |})).
  split; [discriminate | split; [reflexivity |]].
  exists " + 1;". reflexivity.
Defined.

Lemma spans_count l : forall lo hi,
  StronglySorted before l ->
  Forall (fun m => lo <= index m /\ idEnd m < hi /\ group1 m <> "") l ->
  9 * List.length l <= hi - lo.
Proof.
  induction l as [| m l IH]; intros lo hi Hs Hall; [simpl; lia |].
  inversion Hs as [| ? ? Hs' Hm]; subst.
  inversion Hall as [| ? ? (Hlo & Hhi & Hne) Hall']; subst.
  assert (Hlen : 1 <= String.length (group1 m))
    by (destruct (group1 m); [congruence | simpl; lia]).
  specialize (IH (S (idEnd m)) hi Hs').
  assert (Hrest : Forall (fun m' => S (idEnd m) <= index m'
                                    /\ idEnd m' < hi /\ group1 m' <> "") l).
  { rewrite Forall_forall in *. intros m' Hin.
    destruct (Hall' m' Hin) as (_ & H2 & H3). specialize (Hm m' Hin).
    unfold before in Hm. repeat split; [lia | assumption ..]. }
  specialize (IH Hrest). unfold idEnd, idStart in *. simpl. lia.
Qed.

Lemma matchAll_inside lineText m :
  In m (matchAll lineText) -> idEnd m < String.length lineText.
Proof.
  intros H. apply matchAll_token in H. destruct H as (_ & _ & rest & E).
  apply (f_equal String.length) in E.
  rewrite length_drop, !length_append in E. simpl in E.
  unfold idEnd, idStart. lia.
Qed.

(** X2: the matches of a line come in increasing order of index and do
    not overlap (each ends, closing parenthesis included, before the
    next one starts); each lies within the line; and, a token being at
    least nine characters long, a line of [n] characters has at most
    [n / 9] matches. *)
Theorem matchAll_spans (lineText : string) :
  StronglySorted (fun a b => idEnd a < index b) (matchAll lineText)
  /\ Forall (fun m => index m + 7 + String.length (group1 m) + 1
                      <= String.length lineText) (matchAll lineText)
  /\ 9 * List.length (matchAll lineText) <= String.length lineText.
Proof.
  split; [apply scan_sorted | split].
  - apply Forall_forall. intros m Hm.
    apply matchAll_inside in Hm. unfold idEnd, idStart in Hm. lia.
  - rewrite <- (Nat.sub_0_r (String.length lineText)).
    apply spans_count; [apply scan_sorted |].
    apply Forall_forall. intros m Hm. repeat split.
    + lia.
    + now apply matchAll_inside.
    + now apply matchAll_token in Hm.
Qed.

(* ================================================================== *)
(** * What the hover provider answers                                  *)
(* ================================================================== *)

Lemma getResourcePath_no_throw r rs e : getResourcePath r rs <> Throw e.
Proof.
  destruct (getResourcePath_cases r rs) as [-> | (path & ->)]; discriminate.
Qed.

(** X3: a hover at any position of a line yields a hover exactly when
    the leftmost token of that line resolves to a record whose path
    walk ends; the hover then holds that path and that record's code.
    The column hovered plays no part, and a later token of the line is
    never looked at.  The call raises an error only for a line outside
    the document. *)
Theorem provideHover_leftmost_token
  (rs : list Resource) (doc : TextDocument) (position : Position) :
  (forall h,
     provideHover rs doc position = Normal (Some h) <->
     exists lineText m r path,
       nth_error (lines doc) (line position) = Some lineText
       /\ hd_error (matchAll lineText) = Some m
       /\ (forall m', In m' (matchAll lineText) -> index m <= index m')
       /\ findResource rs (group1 m) = Some r
       /\ getResourcePath r rs = Normal path
       /\ h = [ Codeblock path "typescript";
                Text newline;
                Codeblock (code r) "css" ])
  /\ (forall e,
        provideHover rs doc position = Throw e <->
        nth_error (lines doc) (line position) = None
        /\ e = IllegalArgument).
Proof.
  unfold provideHover, lineAt.
  destruct (nth_error (lines doc) (line position)) as [lineText |] eqn:El;
    simpl.
  - rewrite regex_match_matchAll.
    assert (Hleft : forall m, hd_error (matchAll lineText) = Some m ->
              forall m', In m' (matchAll lineText) -> index m <= index m').
    { intros m Hm m' Hin.
      pose proof (scan_sorted lineText 0 0) as Hs. fold (matchAll lineText) in Hs.
      destruct (matchAll lineText) as [| m0 l]; [discriminate |].
      injection Hm as ->. inversion Hs as [| ? ? _ Hall]; subst.
      destruct Hin as [<- | Hin]; [lia |].
      rewrite Forall_forall in Hall. specialize (Hall m' Hin).
      unfold before, idEnd, idStart in Hall. lia. }
    split.
    + intros h. split.
      * destruct (hd_error (matchAll lineText)) as [m |] eqn:Em;
          [| discriminate].
        destruct (findResource rs (group1 m)) as [r |] eqn:Er;
          [| discriminate].
        destruct (getResourcePath_cases r rs) as [Hd | (path & Hp)];
          rewrite ?Hd, ?Hp; simpl; [discriminate |].
        intros [= <-]. exists lineText, m, r, path. auto 10.
      * intros (l' & m & r & path & [= <-] & Hm & _ & Hr & Hp & ->).
        now rewrite Hm, Hr, Hp.
    + intros e. split; [| intros [H _]; discriminate H].
      destruct (hd_error (matchAll lineText)) as [m |]; [| discriminate].
      destruct (findResource rs (group1 m)) as [r |]; [| discriminate].
      destruct (getResourcePath_cases r rs) as [Hd | (path & Hp)];
        rewrite ?Hd, ?Hp; simpl; discriminate.
  - split.
    + intros h. split; [discriminate |].
      intros (l' & _ & _ & _ & H & _). discriminate H.
    + intros e. split; [intros [= <-]; auto | intros [_ ->]; reflexivity].
Qed.

(** On [getRes(1) getRes(2)] the digit of the second token gets the
    hover of record 1. *)
Lemma provideHover_leftmost_token_witness :
  provideHover Scenario.snapshot (Scenario.doc ["getRes(1) getRes(2)"])
    {| line := 0; character := 17 |}
  = Normal (Some [ Codeblock "A" "typescript";
                   Text newline;
                   Codeblock (code Scenario.A) "css" ]).
Proof.
  apply (proj1 (provideHover_leftmost_token Scenario.snapshot
                  (Scenario.doc ["getRes(1) getRes(2)"])
                  {| line := 0; character := 17 |})).
  exists "getRes(1) getRes(2)", {| index := 0; group1 := "1" |},
    Scenario.A, "A".
  repeat split. intros m' _. simpl. lia.
Defined.

(* ================================================================== *)
(** * The handler as a function of the document                        *)
(* ================================================================== *)

Lemma annotationOf_resolved rs cursor i m path :
  resolves rs m path ->
  annotationOf rs cursor (i, m)
  = if isOnId cursor i m then [] else [annotation i m path].
Proof.
  intros (r & Hr & Hp). unfold annotationOf. simpl. now rewrite Hr, Hp.
Qed.

Lemma statusOf_resolved rs cursor i m path :
  resolves rs m path ->
  statusOf rs cursor (i, m)
  = if isOnId cursor i m
    then Some {| text := group1 m ++ ":" ++ path;
                 backgroundColor := warningBackground;
                 foreground := warningForeground;
                 visible := true |}
    else None.
Proof.
  intros (r & Hr & Hp). unfold statusOf. simpl. now rewrite Hr, Hp.
Qed.

(** The loops, with the array and the status bar item they update,
    compute what the two folds over the occurrences do. *)
Lemma handleOccurrences_folds rs cursor occs : forall st st',
  handleOccurrences rs cursor st occs = Normal st' ->
  pending st' = pending st ++ flat_map (annotationOf rs cursor) occs
  /\ status st' = statusAfter rs cursor occs (status st).
Proof.
  induction occs as [| [i m] occs IH]; intros st st' H; simpl in H.
  - injection H as <-. simpl. now rewrite app_nil_r.
  - destruct (handleMatch rs cursor i st m) as [st1 | e |] eqn:E;
      simpl in H; try discriminate.
    destruct (IH _ _ H) as [Hp Hs]. rewrite Hp, Hs. clear IH H Hp Hs.
    unfold statusAfter. cbn [flat_map fold_left].
    destruct (@handleMatch_Normal rs cursor i st m st1 E)
      as [[Hnone ->] | [(p & Hres & Hc & ->) | (p & Hres & Hc & ->)]].
    + unfold annotationOf, statusOf. simpl. now rewrite Hnone.
    + rewrite (annotationOf_resolved cursor i Hres),
        (statusOf_resolved cursor i Hres), Hc.
      simpl. now rewrite <- app_assoc.
    + rewrite (annotationOf_resolved cursor i Hres),
        (statusOf_resolved cursor i Hres), Hc.
      now split.
Qed.

(** A pass that returned started no walk without end. *)
Lemma handleOccurrences_paths rs cursor occs : forall st st',
  handleOccurrences rs cursor st occs = Normal st' ->
  forall i m r, In (i, m) occs -> findResource rs (group1 m) = Some r ->
                exists path, getResourcePath r rs = Normal path.
Proof.
  induction occs as [| [i0 m0] occs IH]; intros st st' H i m r Hin Hr;
    [destruct Hin |].
  simpl in H.
  destruct (handleMatch rs cursor i0 st m0) as [st1 | e |] eqn:E;
    simpl in H; try discriminate.
  destruct Hin as [[= -> ->] | Hin]; [| eapply IH; eassumption].
  destruct (getResourcePath_cases r rs) as [Hd | Hp]; [| exact Hp].
  rewrite (@handleMatch_diverges rs cursor i st m r Hr Hd) in E.
  discriminate.
Qed.

(** The status bar item after a pass is the one before it, or does not
    depend on the one before it. *)
Lemma statusAfter_cases rs cursor occs : forall sb,
  statusAfter rs cursor occs sb = sb
  /\ (forall o, In o occs -> statusOf rs cursor o = None)
  \/ (exists o shown, In o occs /\ statusOf rs cursor o = Some shown
                      /\ forall sb', statusAfter rs cursor occs sb' = shown).
Proof.
  unfold statusAfter.
  induction occs as [| o occs IH] using rev_ind; intros sb.
  - left. split; [reflexivity | intros o []].
  - rewrite fold_left_app. simpl.
    destruct (statusOf rs cursor o) as [shown |] eqn:Eo.
    + right. exists o, shown. split; [apply in_or_app; simpl; auto |].
      split; [assumption |]. intros sb'. rewrite fold_left_app. simpl.
      now rewrite Eo.
    + destruct (IH sb) as [[Hsb Hnone] | (o' & shown & Hin & Ho' & Hall)].
      * left. split; [assumption |].
        intros x Hx. apply in_app_or in Hx.
        destruct Hx as [Hx | [<- | []]]; auto.
      * right. exists o', shown. split; [apply in_or_app; auto |].
        split; [assumption |]. intros sb'. rewrite fold_left_app. simpl.
        now rewrite Eo.
Qed.

(** X4: when the handler returns on a JavaScript document, the
    decorations it installs are, in document order (line by line, left
    to right), one annotation per occurrence that resolves and that the
    cursor is not on; what the editor showed before is discarded.  The
    document and the cursor are left alone, and the status bar item is
    the one each occurrence under the cursor overwrote in turn. *)
Theorem handleSelectionChange_decorations
  (rs : list Resource) (editor editor' : TextEditor)
  (sb sb' : StatusBarItem) :
  languageId (document editor) = "javascript" ->
  handleSelectionChange rs editor sb = Normal (editor', sb') ->
  decorations editor'
  = flat_map (annotationOf rs (active editor))
      (occurrences 0 (lines (document editor)))
  /\ sb' = statusAfter rs (active editor)
             (occurrences 0 (lines (document editor))) sb
  /\ document editor' = document editor
  /\ active editor' = active editor
  /\ List.length (decorations editor')
     <= List.length (occurrences 0 (lines (document editor))).
Proof.
  intros Hjs H.
  rewrite (handleSelectionChange_javascript rs editor sb Hjs) in H.
  destruct (handleOccurrences _ _ _ _) as [st' | e |] eqn:E;
    simpl in H; try discriminate.
  injection H as <- <-. simpl.
  destruct (handleOccurrences_folds _ _ _ _ E) as [Hp Hs]. simpl in Hp, Hs.
  repeat split; try assumption.
  rewrite Hp. clear.
  induction (occurrences 0 (lines (document editor))) as [| o l IH];
    simpl; [lia |].
  rewrite length_app.
  assert (List.length (annotationOf rs (active editor) o) <= 1); [| lia].
  unfold annotationOf.
  destruct (findResource _ _); [| simpl; lia].
  destruct (getResourcePath _ _); try (simpl; lia).
  destruct (isOnId _ _ _); simpl; lia.
Qed.

(** Scenario B: one line, one token, the cursor at column 0. *)
Lemma handleSelectionChange_decorations_witness :
  exists editor' sb',
    handleSelectionChange Scenario.snapshot
      (Scenario.editor ["x = getRes(2)"] 0 0) Scenario.idle
    = Normal (editor', sb')
    /\ decorations editor'
       = flat_map (annotationOf Scenario.snapshot {| line := 0; character := 0 |})
           (occurrences 0 ["x = getRes(2)"])
    /\ sb' = Scenario.idle.
Proof.
  eexists. eexists. split; [reflexivity |].
  destruct (@handleSelectionChange_decorations Scenario.snapshot
              (Scenario.editor ["x = getRes(2)"] 0 0) _
              Scenario.idle _ eq_refl eq_refl) as (Hd & Hs & _).
  split; [exact Hd | exact Hs].
Defined.

(** X5: the handler is idempotent.  Run again on the editor and the
    status bar item it has just produced, with the same snapshot, it
    returns and changes nothing: decorations are not piled up and the
    status text is not rebuilt into something else. *)
Theorem handleSelectionChange_idempotent
  (rs : list Resource) (editor editor' : TextEditor)
  (sb sb' : StatusBarItem) :
  handleSelectionChange rs editor sb = Normal (editor', sb') ->
  handleSelectionChange rs editor' sb' = Normal (editor', sb').
Proof.
  intros H.
  destruct (String.eqb_spec (languageId (document editor)) "javascript")
    as [Hjs | Hother].
  - rewrite (handleSelectionChange_javascript rs editor sb Hjs) in H.
    destruct (handleOccurrences _ _ _ _) as [st' | e |] eqn:E;
      simpl in H; try discriminate.
    injection H as <- <-.
    rewrite handleSelectionChange_javascript by exact Hjs. simpl.
    set (occs := occurrences 0 (lines (document editor))) in *.
    destruct (@handleOccurrences_returns rs (active editor) occs
                {| pending := []; status := status st' |}) as (st2 & E2).
    { intros i m r. eapply handleOccurrences_paths. exact E. }
    rewrite E2. simpl.
    destruct (handleOccurrences_folds _ _ _ _ E) as [Hp Hs].
    destruct (handleOccurrences_folds _ _ _ _ E2) as [Hp2 Hs2].
    simpl in Hp, Hs, Hp2, Hs2.
    assert (Hst : status st2 = status st').
    { rewrite Hs2, Hs.
      destruct (statusAfter_cases rs (active editor) occs sb)
        as [[Hsame _] | (o & shown & _ & _ & Hall)].
      - now rewrite !Hsame.
      - now rewrite !Hall. }
    rewrite Hst. do 3 f_equal. congruence.
  - unfold handleSelectionChange in *.
    apply String.eqb_neq in Hother. rewrite Hother in H. simpl in H.
    injection H as <- <-. now rewrite Hother.
Qed.

Lemma handleSelectionChange_idempotent_witness :
  exists editor' sb',
    handleSelectionChange Scenario.snapshot
      (Scenario.editor ["x = getRes(2)"; "getRes(1)"] 0 11) Scenario.idle
    = Normal (editor', sb')
    /\ handleSelectionChange Scenario.snapshot editor' sb'
       = Normal (editor', sb').
Proof.
  eexists. eexists. split; [reflexivity |].
  exact (@handleSelectionChange_idempotent Scenario.snapshot
           (Scenario.editor ["x = getRes(2)"; "getRes(1)"] 0 11) _
           Scenario.idle _ eq_refl).
Defined.

Lemma statusOf_Some rs cursor i m shown :
  statusOf rs cursor (i, m) = Some shown ->
  exists path,
    resolves rs m path /\ isOnId cursor i m = true
    /\ shown = {| text := group1 m ++ ":" ++ path;
                  backgroundColor := warningBackground;
                  foreground := warningForeground;
                  visible := true |}.
Proof.
  unfold statusOf. simpl.
  destruct (findResource rs (group1 m)) as [r |] eqn:Er; [| discriminate].
  destruct (getResourcePath r rs) as [path | |] eqn:Ep; try discriminate.
  destruct (isOnId cursor i m); [| discriminate].
  intros [= <-]. exists path. repeat split. now exists r.
Qed.

(** X6: the handler never hides the status bar item and never clears
    its text.  On a document that is not JavaScript it changes nothing,
    whatever the cursor is on.  On a JavaScript document, when the
    cursor is on the id of no resolved occurrence (it moved away) the
    item comes out exactly as it went in, still showing the last id
    visited; when the cursor is on the id of a resolved occurrence the
    item comes out shown, in the warning colours, with the digits of
    that occurrence, a colon and its path as text, whatever it showed
    before. *)
Theorem handleSelectionChange_status_kept
  (rs : list Resource) (editor editor' : TextEditor)
  (sb sb' : StatusBarItem) :
  handleSelectionChange rs editor sb = Normal (editor', sb') ->
  (visible sb = true -> visible sb' = true)
  /\ ((forall i lineText m path,
         nth_error (lines (document editor)) i = Some lineText ->
         In m (matchAll lineText) ->
         resolves rs m path ->
         isOnId (active editor) i m = false) ->
      sb' = sb)
  /\ (sb' = sb
      \/ exists i lineText m path,
           nth_error (lines (document editor)) i = Some lineText
           /\ In m (matchAll lineText)
           /\ resolves rs m path
           /\ isOnId (active editor) i m = true
           /\ sb' = {| text := group1 m ++ ":" ++ path;
                       backgroundColor := warningBackground;
                       foreground := warningForeground;
                       visible := true |})
  /\ (languageId (document editor) <> "javascript" ->
      sb' = sb /\ editor' = editor)
  /\ (languageId (document editor) = "javascript" ->
      forall i lineText m path,
        nth_error (lines (document editor)) i = Some lineText ->
        In m (matchAll lineText) ->
        resolves rs m path ->
        isOnId (active editor) i m = true ->
        sb' = {| text := group1 m ++ ":" ++ path;
                 backgroundColor := warningBackground;
                 foreground := warningForeground;
                 visible := true |}).
Proof.
  intros H.
  assert (Hcases :
    sb' = sb
    \/ exists i lineText m path,
         nth_error (lines (document editor)) i = Some lineText
         /\ In m (matchAll lineText)
         /\ resolves rs m path
         /\ isOnId (active editor) i m = true
         /\ sb' = {| text := group1 m ++ ":" ++ path;
                     backgroundColor := warningBackground;
                     foreground := warningForeground;
                     visible := true |}).
  { destruct (String.eqb_spec (languageId (document editor)) "javascript")
      as [Hjs | Hother].
    - destruct (handleSelectionChange_decorations _ _ _ Hjs H)
        as (_ & -> & _).
      destruct (statusAfter_cases rs (active editor)
                  (occurrences 0 (lines (document editor))) sb)
        as [[Hsame _] | ([i m] & shown & Hin & Ho & Hall)].
      + now left.
      + right. rewrite Hall.
        apply occurrences_nth in Hin. destruct Hin as (l & Hl & Hm).
        apply statusOf_Some in Ho. destruct Ho as (path & Hres & Hc & ->).
        exists i, l, m, path. auto.
    - left. unfold handleSelectionChange in H.
      apply String.eqb_neq in Hother. rewrite Hother in H. simpl in H.
      injection H as H1 H2. now subst. }
  split; [| split; [| split; [exact Hcases | split]]].
  - intros Hv.
    destruct Hcases as [-> | (i & l & m & path & _ & _ & _ & _ & ->)];
      [assumption | reflexivity].
  - intros Hoff.
    destruct Hcases as [-> | (i & l & m & path & Hl & Hm & Hres & Hc & _)];
      [reflexivity |].
    rewrite (Hoff i l m path Hl Hm Hres) in Hc. discriminate.
  - intros Hother. unfold handleSelectionChange in H.
    apply String.eqb_neq in Hother. rewrite Hother in H. simpl in H.
    injection H as H1 H2. now subst.
  - intros Hjs i lineText m path Hl Hm Hres Hc.
    destruct (handleSelectionChange_decorations _ _ _ Hjs H)
      as (_ & -> & _).
    assert (Hin : In (i, m) (occurrences 0 (lines (document editor))))
      by (apply occurrences_nth; eauto).
    destruct (statusAfter_cases rs (active editor)
                (occurrences 0 (lines (document editor))) sb)
      as [[_ Hnone] | ([i' m'] & shown & Hin' & Ho & Hall)].
    + specialize (Hnone _ Hin).
      rewrite (statusOf_resolved (active editor) i Hres), Hc in Hnone.
      discriminate.
    + rewrite Hall.
      apply statusOf_Some in Ho. destruct Ho as (path' & Hres' & Hc' & ->).
      pose proof (@occurrences_isOnId_inj _ _ _ _ _ _ Hin Hin' Hc Hc') as E.
      injection E as -> ->.
      now rewrite (resolves_unique Hres Hres').
Qed.

(** After a visit to [getRes(2)] the cursor moves to column 0: the
    status bar item still reads ["2:A-B"]. *)
Lemma handleSelectionChange_status_kept_witness :
  exists editor' sb',
    handleSelectionChange Scenario.snapshot
      (Scenario.editor ["x = getRes(2)"] 0 0) Scenario.visited
    = Normal (editor', sb')
    /\ sb' = Scenario.visited.
Proof.
  eexists. eexists. split; [reflexivity |].
  apply (proj1 (proj2 (@handleSelectionChange_status_kept Scenario.snapshot
                         (Scenario.editor ["x = getRes(2)"] 0 0) _
                         Scenario.visited _ eq_refl))).
  intros [| i] lineText m path Hl Hm _; simpl in Hl.
  - injection Hl as <-. destruct Hm as [<- | []]. reflexivity.
  - destruct i; discriminate Hl.
Defined.

(* ================================================================== *)
(** * When the handler returns                                         *)
(* ================================================================== *)

Lemma handleMatch_no_throw rs cursor i st m e :
  handleMatch rs cursor i st m <> Throw e.
Proof.
  unfold handleMatch.
  destruct (findResource rs (group1 m)) as [r |]; [| discriminate].
  destruct (getResourcePath_cases r rs) as [-> | (path & ->)]; discriminate.
Qed.

Lemma handleMatch_Diverge rs cursor i st m :
  handleMatch rs cursor i st m = Diverge <->
  exists r, findResource rs (group1 m) = Some r
            /\ getResourcePath r rs = Diverge.
Proof.
  unfold handleMatch. split.
  - destruct (findResource rs (group1 m)) as [r |]; [| discriminate].
    destruct (getResourcePath_cases r rs) as [Hd | (path & Hp)].
    + eauto.
    + rewrite Hp. discriminate.
  - intros (r & -> & ->). reflexivity.
Qed.

Lemma handleOccurrences_no_throw rs cursor occs : forall st e,
  handleOccurrences rs cursor st occs <> Throw e.
Proof.
  induction occs as [| [i m] occs IH]; intros st e; simpl; [discriminate |].
  destruct (handleMatch rs cursor i st m) as [st1 | e1 |] eqn:E; simpl.
  - apply IH.
  - now apply handleMatch_no_throw in E.
  - discriminate.
Qed.

Lemma handleOccurrences_Diverge rs cursor occs : forall st,
  handleOccurrences rs cursor st occs = Diverge <->
  exists i m r, In (i, m) occs /\ findResource rs (group1 m) = Some r
                /\ getResourcePath r rs = Diverge.
Proof.
  induction occs as [| [i m] occs IH]; intros st; simpl.
  - split; [discriminate | intros (_ & _ & _ & [] & _)].
  - destruct (handleMatch rs cursor i st m) as [st1 | e1 |] eqn:E; simpl.
    + rewrite IH. split.
      * intros (i' & m' & r & Hin & Hr). exists i', m', r. tauto.
      * intros (i' & m' & r & [[= <- <-] | Hin] & Hr & Hd).
        -- rewrite (@handleMatch_diverges rs cursor i st m r Hr Hd) in E.
           discriminate.
        -- exists i', m', r. tauto.
    + now apply handleMatch_no_throw in E.
    + split; [| reflexivity]. intros _.
      apply handleMatch_Diverge in E. destruct E as (r & Hr & Hd).
      exists i, m, r. auto.
Qed.

(** X7: on a JavaScript document the handler raises no error.  It
    returns iff the path walk of every occurrence that resolves ends,
    and it never returns iff some occurrence of the document resolves to
    a record whose parent chain is cyclic: one reference to such a
    record, anywhere in the document, leaves all decorations as they
    were. *)
Theorem handleSelectionChange_returns_iff
  (rs : list Resource) (editor : TextEditor) (sb : StatusBarItem) :
  languageId (document editor) = "javascript" ->
  (forall e, handleSelectionChange rs editor sb <> Throw e)
  /\ ((exists out, handleSelectionChange rs editor sb = Normal out) <->
      forall i lineText m r,
        nth_error (lines (document editor)) i = Some lineText ->
        In m (matchAll lineText) ->
        findResource rs (group1 m) = Some r ->
        exists path, getResourcePath r rs = Normal path)
  /\ (handleSelectionChange rs editor sb = Diverge <->
      exists i lineText m r,
        nth_error (lines (document editor)) i = Some lineText
        /\ In m (matchAll lineText)
        /\ findResource rs (group1 m) = Some r
        /\ getResourcePath r rs = Diverge).
Proof.
  intros Hjs. rewrite (handleSelectionChange_javascript rs editor sb Hjs).
  set (occs := occurrences 0 (lines (document editor))).
  set (st0 := {| pending := []; status := sb |}).
  split; [| split].
  - intros e.
    destruct (handleOccurrences rs (active editor) st0 occs) as [st' | e' |]
      eqn:E; simpl; try discriminate.
    now apply handleOccurrences_no_throw in E.
  - split.
    + intros (out & H) i lineText m r Hl Hm Hr.
      destruct (handleOccurrences rs (active editor) st0 occs) as [st' | e' |]
        eqn:E; simpl in H; try discriminate.
      apply (handleOccurrences_paths _ _ _ _ E i m); [| assumption].
      apply occurrences_nth. eauto.
    + intros Hall.
      destruct (@handleOccurrences_returns rs (active editor) occs st0)
        as (st' & ->).
      * intros i m r Hin Hr. apply occurrences_nth in Hin.
        destruct Hin as (l & Hl & Hm). eapply Hall; eassumption.
      * simpl. eauto.
  - split.
    + destruct (handleOccurrences rs (active editor) st0 occs)
        as [st' | e' |] eqn:E; simpl; try discriminate.
      intros _. apply handleOccurrences_Diverge in E.
      destruct E as (i & m & r & Hin & Hr & Hd).
      apply occurrences_nth in Hin. destruct Hin as (l & Hl & Hm).
      exists i, l, m, r. auto.
    + intros (i & l & m & r & Hl & Hm & Hr & Hd).
      assert (E : handleOccurrences rs (active editor) st0 occs = Diverge).
      { apply handleOccurrences_Diverge. exists i, m, r.
        split; [apply occurrences_nth; eauto | auto]. }
      now rewrite E.
Qed.

(** A document that mentions a record of the two-record cycle, next to
    a line that does not. *)
Lemma handleSelectionChange_returns_iff_witness :
  handleSelectionChange Scenario.cycle
    (Scenario.editor ["let a = 1;"; "getRes(2)"] 0 0) Scenario.idle
  = Diverge.
Proof.
  apply (proj2 (proj2 (@handleSelectionChange_returns_iff Scenario.cycle
                         (Scenario.editor ["let a = 1;"; "getRes(2)"] 0 0)
                         Scenario.idle eq_refl))).
  exists 1, "getRes(2)", {| index := 0; group1 := "2" |}, Scenario.loop2.
  repeat split. now left.
Defined.

(* ================================================================== *)
(** * Completion                                                       *)
(* ================================================================== *)

Lemma take_drop n : forall s, s = (take n s ++ drop n s)%string.
Proof.
  induction n as [| n IH]; intros s; [now destruct s |].
  destruct s as [| c s]; [reflexivity |]. simpl. f_equal. apply IH.
Qed.

Lemma length_take n : forall s,
  String.length (take n s) = Nat.min n (String.length s).
Proof.
  induction n as [| n IH]; intros s; [now destruct s |].
  destruct s as [| c s]; [reflexivity |]. simpl. f_equal. apply IH.
Qed.

(** [endsWith] holds of the strings that end with the suffix. *)
Lemma endsWith_spec s t :
  endsWith s t = true <-> exists front, s = (front ++ t)%string.
Proof.
  unfold endsWith. rewrite andb_true_iff, Nat.leb_le, String.eqb_eq. split.
  - intros [Hle Hd].
    exists (take (String.length s - String.length t) s).
    etransitivity; [apply (take_drop (String.length s - String.length t)) |].
    now rewrite Hd.
  - intros (front & ->). rewrite length_append. split; [lia |].
    replace (String.length front + String.length t - String.length t)
      with (String.length front) by lia.
    apply drop_append.
Qed.

Lemma mapM_Normal (A B : Type) (f : A -> Completion B) l : forall bs,
  mapM f l = Normal bs <-> Forall2 (fun a b => f a = Normal b) l bs.
Proof.
  induction l as [| a l IH]; intros bs; simpl.
  - split; [intros [= <-]; constructor | intros H; now inversion H].
  - destruct (f a) as [b | e |] eqn:Ea; simpl.
    + destruct (mapM f l) as [bs' | e |] eqn:El; simpl.
      * split.
        -- intros [= <-]. constructor; [assumption | now apply IH].
        -- intros H. inversion H as [| ? b0 ? bs0 Hb Hrest]; subst.
           apply IH in Hrest. congruence.
      * split; [discriminate |].
        intros H. inversion H as [| ? b0 ? bs0 Hb Hrest]; subst.
        apply IH in Hrest. discriminate.
      * split; [discriminate |].
        intros H. inversion H as [| ? b0 ? bs0 Hb Hrest]; subst.
        apply IH in Hrest. discriminate.
    + split; [discriminate |].
      intros H. inversion H as [| ? b0 ? bs0 Hb Hrest]; subst. congruence.
    + split; [discriminate |].
      intros H. inversion H as [| ? b0 ? bs0 Hb Hrest]; subst. congruence.
Qed.

Lemma mapM_Diverge (A B : Type) (f : A -> Completion B) l :
  (forall a e, f a <> Throw e) ->
  mapM f l = Diverge <-> exists a, In a l /\ f a = Diverge.
Proof.
  intros Hf. induction l as [| a l IH]; simpl.
  - split; [discriminate | intros (_ & [] & _)].
  - destruct (f a) as [b | e |] eqn:Ea; simpl.
    + destruct (mapM f l) as [bs' | e |] eqn:El; simpl.
      * split; [discriminate |].
        intros (x & [<- | Hx] & Hd); [congruence |].
        assert (@Normal (list B) bs' = Diverge) by (apply IH; eauto).
        discriminate.
      * split; [discriminate |].
        intros (x & [<- | Hx] & Hd); [congruence |].
        assert (@Throw (list B) e = Diverge) by (apply IH; eauto).
        discriminate.
      * split; [| reflexivity]. intros _.
        destruct (proj1 IH eq_refl) as (x & Hx & Hd). eauto.
    + now destruct (Hf a e).
    + split; [| reflexivity]. intros _. exists a. auto.
Qed.

Lemma completionItem_Normal rs r item :
  completionItem rs r = Normal item <->
  exists path, getResourcePath r rs = Normal path /\ item = itemOf r path.
Proof.
  unfold completionItem, itemOf.
  destruct (getResourcePath_cases r rs) as [Hd | (path & Hp)].
  - rewrite Hd. simpl. split; [discriminate |].
    intros (path & H & _). discriminate.
  - rewrite Hp. simpl. split.
    + intros [= <-]. eauto.
    + intros (path' & [= <-] & ->). reflexivity.
Qed.

Lemma completionItem_Diverge rs r :
  completionItem rs r = Diverge <-> getResourcePath r rs = Diverge.
Proof.
  unfold completionItem.
  destruct (getResourcePath_cases r rs) as [Hd | (path & Hp)].
  - rewrite Hd. simpl. tauto.
  - rewrite Hp. simpl. split; discriminate.
Qed.

Lemma completionItem_no_throw rs r e : completionItem rs r <> Throw e.
Proof.
  unfold completionItem.
  destruct (getResourcePath_cases r rs) as [-> | (path & ->)]; discriminate.
Qed.

Lemma provideCompletionItems_triggered rs doc position lineText front :
  nth_error (lines doc) (line position) = Some lineText ->
  take (character position) lineText = (front ++ "getRes(")%string ->
  provideCompletionItems rs doc position
  = (items <- mapM (completionItem rs) rs ;; Normal (Some items)).
Proof.
  intros Hl Ht. unfold provideCompletionItems, lineAt. rewrite Hl. simpl.
  replace (endsWith (take (character position) lineText) "getRes(")
    with true; [reflexivity |].
  symmetry. apply endsWith_spec. eauto.
Qed.

(** X8: the completion provider answers with items exactly when the
    text of the line before the cursor ends with [getRes(], nothing
    typed behind it, and every record's path walk ends.  It then offers
    one item per record of the snapshot, in snapshot order and without
    any filtering: the label is ["<id>: <path>"], the detail the path,
    the inserted text the id as a string, the sort key the name in
    lower case.  Elsewhere on a line it answers undefined. *)
Theorem provideCompletionItems_items
  (rs : list Resource) (doc : TextDocument) (position : Position) :
  (forall items,
     provideCompletionItems rs doc position = Normal (Some items) <->
     exists lineText front,
       nth_error (lines doc) (line position) = Some lineText
       /\ take (character position) lineText = (front ++ "getRes(")%string
       /\ Forall2 (fun r item =>
                     exists path, getResourcePath r rs = Normal path
                                  /\ item = itemOf r path) rs items)
  /\ (provideCompletionItems rs doc position = Normal None <->
      exists lineText,
        nth_error (lines doc) (line position) = Some lineText
        /\ forall front,
             take (character position) lineText
             <> (front ++ "getRes(")%string)
  /\ (forall items,
        provideCompletionItems rs doc position = Normal (Some items) ->
        List.length items = List.length rs
        /\ map insertText items = map (fun r => toString (id r)) rs).
Proof.
  assert (Hitems : forall items,
     provideCompletionItems rs doc position = Normal (Some items) <->
     exists lineText front,
       nth_error (lines doc) (line position) = Some lineText
       /\ take (character position) lineText = (front ++ "getRes(")%string
       /\ Forall2 (fun r item =>
                     exists path, getResourcePath r rs = Normal path
                                  /\ item = itemOf r path) rs items).
  { intros items. split.
    - unfold provideCompletionItems, lineAt.
      destruct (nth_error (lines doc) (line position)) as [lineText |] eqn:El;
        simpl; [| discriminate].
      destruct (endsWith (take (character position) lineText) "getRes(")
        eqn:Ee; simpl; [| discriminate].
      apply endsWith_spec in Ee. destruct Ee as (front & Ef).
      destruct (mapM (completionItem rs) rs) as [its | e |] eqn:Em;
        simpl; try discriminate.
      intros [= <-]. exists lineText, front. repeat split; try assumption.
      apply mapM_Normal in Em.
      eapply Forall2_impl; [| exact Em].
      intros r item. apply completionItem_Normal.
    - intros (lineText & front & Hl & Ht & Hall).
      rewrite (@provideCompletionItems_triggered rs doc position lineText front
               Hl Ht).
      replace (mapM (completionItem rs) rs) with (Normal items);
        [reflexivity |].
      symmetry. apply mapM_Normal.
      eapply Forall2_impl; [| exact Hall].
      intros r item. apply completionItem_Normal. }
  split; [exact Hitems | split].
  - unfold provideCompletionItems, lineAt.
    destruct (nth_error (lines doc) (line position)) as [lineText |] eqn:El;
      simpl.
    + destruct (endsWith (take (character position) lineText) "getRes(")
        eqn:Ee; simpl.
      * split.
        -- destruct (mapM (completionItem rs) rs); discriminate.
        -- intros (l' & [= <-] & Hno).
           apply endsWith_spec in Ee. destruct Ee as (front & Ef).
           now destruct (Hno front).
      * split; [| reflexivity]. intros _. exists lineText.
        split; [reflexivity |]. intros front Hf.
        assert (endsWith (take (character position) lineText) "getRes("
                = true) by (apply endsWith_spec; eauto).
        congruence.
    + split; [discriminate | intros (l' & H & _); discriminate H].
  - intros items H. apply Hitems in H.
    destruct H as (_ & _ & _ & _ & Hall).
    induction Hall as [| r item l its (path & _ & ->) _ [IHlen IHmap]];
      [now split |].
    simpl. split; f_equal; assumption.
Qed.

(** Right behind [getRes(] on the snapshot of Scenario A. *)
Lemma provideCompletionItems_items_witness :
  provideCompletionItems Scenario.snapshot (Scenario.doc ["x = getRes("])
    {| line := 0; character := 11 |}
  = Normal (Some [ itemOf Scenario.A "A"; itemOf Scenario.B "A-B" ]).
Proof.
  apply (proj1 (provideCompletionItems_items Scenario.snapshot
                  (Scenario.doc ["x = getRes("])
                  {| line := 0; character := 11 |})).
  exists "x = getRes(", "x = ". repeat split.
  repeat constructor; eexists; split; reflexivity.
Defined.

(** X9: where completion is triggered, the provider raises no error,
    and it never returns iff some record of the snapshot has a cyclic
    parent chain: the path of every record is computed for the list, so
    one such record, whether or not the document mentions it, takes
    completion away for all ids. *)
Theorem provideCompletionItems_hangs
  (rs : list Resource) (doc : TextDocument) (position : Position)
  (lineText front : string) :
  nth_error (lines doc) (line position) = Some lineText ->
  take (character position) lineText = (front ++ "getRes(")%string ->
  (provideCompletionItems rs doc position = Diverge <->
   exists r, In r rs /\ getResourcePath r rs = Diverge)
  /\ (forall e, provideCompletionItems rs doc position <> Throw e)
  /\ ((exists items,
         provideCompletionItems rs doc position = Normal (Some items)) <->
      forall r, In r rs -> exists path, getResourcePath r rs = Normal path).
Proof.
  intros Hl Ht.
  rewrite (@provideCompletionItems_triggered rs doc position lineText front
               Hl Ht).
  pose proof (@mapM_Diverge _ _ (completionItem rs) rs
                (completionItem_no_throw rs)) as Hdiv.
  assert (Hthrow : forall e, mapM (completionItem rs) rs <> Throw e).
  { intros e. generalize rs at 2. intros l.
    induction l as [| a l IH]; simpl; [discriminate |].
    destruct (completionItem rs a) as [b | e' |] eqn:Ea; simpl.
    - destruct (mapM (completionItem rs) l); simpl;
        [discriminate | assumption | discriminate].
    - now apply completionItem_no_throw in Ea.
    - discriminate. }
  split; [| split].
  - destruct (mapM (completionItem rs) rs) as [its | e |] eqn:Em; simpl.
    + split; [discriminate |].
      intros (r & Hr & Hd).
      assert (@Normal (list CompletionItem) its = Diverge); [| discriminate].
      apply Hdiv. exists r. split; [assumption |].
      now apply completionItem_Diverge.
    + now destruct (Hthrow e).
    + split; [| reflexivity]. intros _.
      destruct (proj1 Hdiv eq_refl) as (r & Hr & Hd).
      exists r. split; [assumption | now apply completionItem_Diverge].
  - intros e.
    destruct (mapM (completionItem rs) rs) as [its | e' |] eqn:Em; simpl;
      try discriminate.
    now destruct (Hthrow e').
  - split.
    + intros (items & H) r Hr.
      destruct (getResourcePath_cases r rs) as [Hd | Hp]; [| exact Hp].
      assert (Hm : mapM (completionItem rs) rs = Diverge).
      { apply Hdiv. exists r. split; [assumption |].
        now apply completionItem_Diverge. }
      rewrite Hm in H. discriminate.
    + intros Hall.
      destruct (mapM (completionItem rs) rs) as [its | e |] eqn:Em; simpl.
      * eauto.
      * now destruct (Hthrow e).
      * destruct (proj1 Hdiv eq_refl) as (r & Hr & Hd).
        apply completionItem_Diverge in Hd.
        destruct (Hall r Hr) as (path & Hp). congruence.
Qed.

(** A snapshot with Scenario A and, unrelated to it, a record that is
    its own parent. *)
Lemma provideCompletionItems_hangs_witness :
  provideCompletionItems (Scenario.snapshot ++ [Scenario.selfish])
    (Scenario.doc ["getRes("]) {| line := 0; character := 7 |}
  = Diverge.
Proof.
  apply (proj1 (@provideCompletionItems_hangs
                  (Scenario.snapshot ++ [Scenario.selfish])
                  (Scenario.doc ["getRes("]) {| line := 0; character := 7 |}
                  "getRes(" "" eq_refl eq_refl)).
  exists Scenario.selfish. split; [simpl; auto | reflexivity].
Defined.

(* ================================================================== *)
(** * From a completion to a reference                                 *)
(* ================================================================== *)



Lemma key_of_toString r : key_of r = toString (id r).
Proof. unfold key_of. now destruct (id r). Qed.




(* ================================================================== *)
(** * When buildResourceTree raises                                    *)
(* ================================================================== *)

(** X11: on a snapshot no id of which is ["__proto__"],
    [buildResourceTree] raises a TypeError iff some record has a truthy
    [pid] that, as a property key, names a member of [Object.prototype]
    ([constructor], [toString], [valueOf], ...) while no record has that
    key as id: [tree[pid]] is then the inherited member, which has no
    [children] array.  On every other such snapshot it returns. *)
Theorem buildResourceTree_TypeError (rs : list Resource) :
  (forall r, In r rs -> key_of r <> "__proto__") ->
  (buildResourceTree rs = ThrowsTypeError <->
   exists r,
     In r rs /\ truthy (pid r) = true
     /\ inherited (property_key (pid r)) = true
     /\ forall x, In x rs -> key_of x <> property_key (pid r))
  /\ ((exists f, buildResourceTree rs = Returns f) <->
      forall r,
        In r rs -> truthy (pid r) = true ->
        inherited (property_key (pid r)) = true ->
        exists x, In x rs /\ key_of x = property_key (pid r)).
Proof.
  intros Hproto.
  assert (Hnp : stored rs prototype_key = None).
  { apply stored_None. intros x Hx. now apply Hproto. }
  assert (Hlook : forall k,
            lookup (allocate rs []) k = Inherited <->
            inherited k = true /\ forall x, In x rs -> key_of x <> k).
  { intros k. rewrite lookup_allocate, Hnp.
    destruct (stored rs k) as [x |] eqn:Es.
    - split; [discriminate |]. intros [_ Hno].
      apply stored_key in Es. destruct Es as [Hk Hx].
      now destruct (Hno x Hx).
    - rewrite stored_None in Es.
      destruct (inherited k); split; try discriminate; try tauto.
      intros [H _]. discriminate H. }
  assert (Hthrow : buildResourceTree rs = ThrowsTypeError <->
            exists r, In r rs /\ truthy (pid r) = true
                      /\ inherited (property_key (pid r)) = true
                      /\ forall x, In x rs ->
                                   key_of x <> property_key (pid r)).
  { rewrite buildResourceTree_throws_iff.
    split; intros (r & Hr & Ht & H); exists r.
    - apply Hlook in H. tauto.
    - rewrite Hlook. tauto. }
  split; [exact Hthrow | split].
  - intros (f & Hf) r Hr Ht Hi.
    destruct (stored rs (property_key (pid r))) as [x |] eqn:Es.
    + apply stored_key in Es. exists x. tauto.
    + rewrite stored_None in Es.
      assert (buildResourceTree rs = ThrowsTypeError); [| congruence].
      apply Hthrow. exists r. auto.
  - intros H. now apply buildResourceTree_returns.
Qed.

(** A record whose parent id is the string [constructor]. *)
Lemma buildResourceTree_TypeError_witness :
  buildResourceTree [Scenario.A; Scenario.constructed] = ThrowsTypeError.
Proof.
  assert (Hproto : forall r, In r [Scenario.A; Scenario.constructed] ->
                             key_of r <> "__proto__").
  { intros r [<- | [<- | []]]; discriminate. }
  apply (proj1 (@buildResourceTree_TypeError
                  [Scenario.A; Scenario.constructed] Hproto)).
  exists Scenario.constructed.
  split; [right; now left | split; [reflexivity | split; [reflexivity |]]].
  intros x [<- | [<- | []]]; discriminate.
Defined.

(* ================================================================== *)
(** * Snapshots with a repeated id                                     *)
(* ================================================================== *)

Lemma find_app_first (A : Type) (test : A -> bool) front x back :
  (forall y, In y front -> test y = false) -> test x = true ->
  find test (front ++ x :: back) = Some x.
Proof.
  intros Hfront Hx. induction front as [| a front IH]; simpl.
  - now rewrite Hx.
  - rewrite (Hfront a) by now left. apply IH.
    intros y Hy. apply Hfront. now right.
Qed.

Lemma stored_last front r back :
  (forall x, In x back -> key_of x <> key_of r) ->
  stored (front ++ r :: back) (key_of r) = Some r.
Proof.
  intros Hback. unfold stored.
  rewrite rev_app_distr. simpl. rewrite <- app_assoc. simpl.
  apply find_app_first.
  - intros y Hy. apply in_rev in Hy. apply String.eqb_neq. now apply Hback.
  - apply String.eqb_refl.
Qed.

(** X12: when two records print the same id, the tree and the lookups
    keep different ones.  [buildResourceTree] stores the last record of
    the list under that key (the later assignment overwrites the
    earlier wrapper), whereas the lookup of the scanner, of the hover
    and of completion returns the first.  The children pushed for that
    key, by either record's id, all hang under the last one. *)
Theorem repeated_id_last_in_tree_first_in_lookup
  (front mid back : list Resource) (a b : Resource) (f : Forest) :
  let rs := front ++ a :: mid ++ b :: back in
  key_of a = key_of b ->
  (forall x, In x front -> key_of x <> key_of a) ->
  (forall x, In x back -> key_of x <> key_of a) ->
  buildResourceTree rs = Returns f ->
  getOwn (store f) (key_of a)
  = Some {| resource := b;
            children := map key_of (filter (attached_to (key_of a)) rs) |}
  /\ findResource rs (key_of a) = Some a
  /\ (forall n, In n (roots f) -> resource n = a -> a = b).
Proof.
  intros rs Hab Hfront Hback H.
  destruct (@buildResourceTree_store rs f H) as [_ Hs].
  assert (Hst : stored rs (key_of a) = Some b).
  { unfold rs. rewrite Hab.
    replace (front ++ a :: mid ++ b :: back)
      with ((front ++ a :: mid) ++ b :: back)
      by (rewrite <- app_assoc; reflexivity).
    apply stored_last. intros x Hx. rewrite <- Hab. now apply Hback. }
  split; [| split].
  - now rewrite Hs, Hst.
  - unfold findResource, rs. apply find_app_first.
    + intros y Hy. apply String.eqb_neq.
      rewrite <- key_of_toString. now apply Hfront.
    + rewrite <- key_of_toString. apply String.eqb_refl.
  - intros n Hn Hr.
    assert (Hex : exists n, In n (roots f) /\ resource n = a) by eauto.
    apply (@root_iff_stored_falsy rs f a H) in Hex.
    destruct Hex as [Hsa _]. congruence.
Qed.

(** Record 1 renamed further down the list. *)
Lemma repeated_id_last_in_tree_first_in_lookup_witness :
  exists f,
    buildResourceTree [Scenario.A; Scenario.B; Scenario.renamed] = Returns f
    /\ option_map resource (getOwn (store f) "1") = Some Scenario.renamed
    /\ findResource [Scenario.A; Scenario.B; Scenario.renamed] "1"
       = Some Scenario.A.
Proof.
  eexists. split; [reflexivity |].
  destruct (@repeated_id_last_in_tree_first_in_lookup
              [] [Scenario.B] [] Scenario.A Scenario.renamed _ eq_refl
              (fun x (H : In x []) => match H with end)
              (fun x (H : In x []) => match H with end) eq_refl)
    as (Hg & Hf & _).
  split; [| exact Hf].
  exact (f_equal (option_map resource) Hg).
Defined.

(* ================================================================== *)
(** * Each record at one place of the forest                           *)
(* ================================================================== *)





(* ================================================================== *)
(** * The order of the roots                                           *)
(* ================================================================== *)















(* ================================================================== *)
(** * Parent ids of another type                                       *)
(* ================================================================== *)




(* ================================================================== *)
(** * Paths of parents and children                                    *)
(* ================================================================== *)

(** X16: the path of a record is the path of its parent, a dash, and
    its own name; it is its own name when no record has its [pid] as
    id; and it is computed iff the path of the parent is: a record under
    a cyclic chain has no path either. *)
Theorem getResourcePath_extends_parent
  (rs : list Resource) (r : Resource) :
  (findParent rs (pid r) = None ->
   getResourcePath r rs = Normal (name r))
  /\ (forall p parentPath,
        findParent rs (pid r) = Some p ->
        getResourcePath p rs = Normal parentPath ->
        getResourcePath r rs
        = Normal (parentPath ++ "-" ++ name r)%string)
  /\ (forall p,
        findParent rs (pid r) = Some p ->
        getResourcePath p rs = Diverge ->
        getResourcePath r rs = Diverge).
Proof.
  split; [| split].
  - intros Hnone. unfold getResourcePath.
    rewrite (@pathNames_ancestors rs r [] (ancestors_root rs (pid r) Hnone)).
    reflexivity.
  - intros p parentPath Hp Hpath. unfold getResourcePath in *.
    destruct (pathNames p rs) as [names | e |] eqn:En; simpl in Hpath;
      try discriminate.
    injection Hpath as <-.
    apply pathNames_Normal_iff in En.
    destruct (walk_ancestors En _ eq_refl) as (l & Hl & ->).
    rewrite (@pathNames_ancestors rs r (p :: l) (ancestors_up _ Hp Hl)).
    simpl. rewrite <- app_assoc. simpl.
    change (rev (map name l) ++ [name p; name r])
      with (rev (map name l) ++ [name p] ++ [name r]).
    rewrite app_assoc. f_equal.
    apply (@join_snoc "-" (rev (map name l) ++ [name p]) (name r)).
    intros E. apply app_eq_nil in E. destruct E. discriminate.
  - intros p Hp Hd. unfold getResourcePath in *.
    destruct (pathNames_total rs r) as [Hr | (names & Hn)];
      [now rewrite Hr |].
    apply pathNames_Normal_iff in Hn.
    destruct (walk_ancestors Hn _ eq_refl) as (l & Hl & _).
    inversion Hl as [v Hnone | v p' l' Hp' Hl']; subst; [congruence |].
    assert (p' = p) by congruence. subst p'.
    rewrite (@pathNames_ancestors rs p l' Hl') in Hd. discriminate.
Qed.

Lemma getResourcePath_extends_parent_witness :
  getResourcePath Scenario.B Scenario.snapshot = Normal "A-B".
Proof.
  exact (proj1 (proj2 (getResourcePath_extends_parent Scenario.snapshot
                         Scenario.B))
           Scenario.A "A" eq_refl eq_refl).
Defined.

(** X17: a path that is returned is made of the names of pairwise
    distinct records of the snapshot followed by the name of the record
    itself; it has at most one name more than the snapshot has
    records. *)
Theorem getResourcePath_bounded
  (rs : list Resource) (r : Resource) (names : list string) :
  pathNames r rs = Normal names ->
  exists l,
    ancestors rs (pid r) l
    /\ names = rev (map name l) ++ [name r]
    /\ NoDup l
    /\ incl l rs
    /\ List.length names <= S (List.length rs).
Proof.
  intros H. apply pathNames_Normal_iff in H.
  destruct (walk_ancestors H _ eq_refl) as (l & Hl & ->).
  exists l. split; [assumption | split; [reflexivity |]].
  split; [eapply ancestors_NoDup; eassumption |].
  split; [eapply ancestors_incl; eassumption |].
  rewrite length_app, length_rev, length_map. simpl.
  pose proof (ancestors_bounded Hl). lia.
Qed.

Lemma getResourcePath_bounded_witness :
  exists l,
    ancestors Scenario.snapshot (pid Scenario.B) l
    /\ ["A"; "B"] = rev (map name l) ++ [name Scenario.B]
    /\ NoDup l
    /\ incl l Scenario.snapshot
    /\ List.length ["A"; "B"] <= S (List.length Scenario.snapshot).
Proof.
  exact (@getResourcePath_bounded Scenario.snapshot Scenario.B ["A"; "B"]
           eq_refl).
Defined.

(* ================================================================== *)
(** * Refreshing twice, and the refresh command                        *)
(* ================================================================== *)

(** X18: the command [extension.refreshResourcesAndCompletion] reports
    a refresh whenever [client.close()] succeeds, whatever the fetch
    did: after a failed query the user is shown the error message and
    then ["resources data refreshed."], the stored list being the old
    one.  Only a failing [close] spares the announcement, and the
    command then fails with that error. *)
Theorem refreshCommand_announces (db : Mongo) (w : World) :
  (forall e,
     query db = Throw e -> close db = Normal tt ->
     completion (refreshCommand db w) = Normal tt
     /\ resources (final (refreshCommand db w)) = resources w
     /\ effects (final (refreshCommand db w))
        = effects w
          ++ [ ConsoleError "Error fetching resources:" e;
               fetch_failed;
               ShowInformationMessage "resources data refreshed." ])
  /\ (forall found,
        query db = Normal found -> close db = Normal tt ->
        completion (refreshCommand db w) = Normal tt
        /\ resources (final (refreshCommand db w)) = found
        /\ effects (final (refreshCommand db w))
           = effects w
             ++ [ ShowInformationMessage "resources data refreshed." ])
  /\ (forall e,
        close db = Throw e -> query db <> Diverge ->
        completion (refreshCommand db w) = Throw e
        /\ effects (final (refreshCommand db w))
           = effects (final (fetchResources db w))).
Proof.
  destruct (fetchResources_fields db w) as (Hres & _ & Hcompl & Heff).
  unfold refreshCommand, Async.bind.
  split; [| split].
  - intros e Hq Hc. rewrite Hq, Hc in *. rewrite Hcompl. simpl.
    rewrite Hres, Heff, <- app_assoc. auto.
  - intros found Hq Hc. rewrite Hq, Hc in *. rewrite Hcompl. simpl.
    rewrite Hres, Heff. auto.
  - intros e Hc Hq. rewrite Hc in *.
    destruct (query db); try congruence; rewrite Hcompl; auto.
Qed.

Lemma refreshCommand_announces_witness :
  effects (final (refreshCommand Scenario.unreachable
                    (Scenario.world [Scenario.A])))
  = [ ConsoleError "Error fetching resources:" (DriverError "ECONNREFUSED");
      fetch_failed;
      ShowInformationMessage "resources data refreshed." ].
Proof.
  exact (proj2 (proj2 (proj1 (refreshCommand_announces Scenario.unreachable
                                (Scenario.world [Scenario.A]))
                         (DriverError "ECONNREFUSED") eq_refl eq_refl))).
Defined.

